(** * React Hooks Studio: a shallow embedding of the stateful parts

    The development follows the TypeScript sources, named here by the
    module paths the imports use (several of them are bundled in one file
    of the source tree, hooks/useContextPlayground.tsx):
    - [components/RenderCounter.tsx]: the module-level [renderCounts] map
      and the two counters that read-increment-write it;
    - [hooks/useEffectPlayground.tsx]: the timer effect with its cleanup
      and the minutes:seconds display;
    - [context/ThemeContext.tsx]: theme initialisation, persistence,
      toggling and the context accessor;
    - [router.tsx] and [data/hooksList.ts]: the static route table and the
      paths the sidebar links to;
    - [hooks/useReducerPlayground.tsx]: the counter and todo reducers,
      and the page that dispatches to them;
    - [hooks/useStatePlayground.tsx], [hooks/useCallbackPlayground.tsx],
      [hooks/useRefPlayground.tsx]: the handlers of the list, item and ref
      demos;
    - [components/Sidebar.tsx], [components/Layout.tsx]: the grouping of
      the hook list and the theme button.

    JavaScript numbers that only ever hold small integers (render counts,
    elapsed seconds, todo ids) are modelled as [Z]; the arithmetic the
    code performs on them ([+ 1], [- 1], [/ 60], [% 60]) is exact on the
    integers below 2^53 that an interactive session can reach.

    React is modelled as far as the components rely on it: a state update
    is followed by a render, and an effect runs after the first render and
    after each render in which one of its dependencies changed, its
    previous cleanup first; on unmount the pending cleanup runs. *)

From stdpp Require Import gmap strings list fin_maps pretty.

Local Open Scope Z_scope.

(** ** The render instrumentation registry (RenderCounter.tsx) *)

Module Registry.

(** [const renderCounts = new Map<string, number>()] *)
Abbreviation renderCounts := (gmap string Z).

Definition initialRenderCounts : renderCounts := ∅.

(** [a ?? b]: the left operand unless it is null or undefined. A
    [Map.get] on a map of numbers is undefined exactly on a missing key. *)
Definition nullish {A} (a : option A) (b : A) : A :=
  match a with
  | Some x => x
  | None => b
  end.

(** The read-increment-write both counters perform at render time:
<<
    const currentCount = (renderCounts.get(id) ?? 0) + 1;
    renderCounts.set(id, currentCount);
>>
    The result is the count the component displays together with the
    registry after the write. *)
Definition observe (id : string) (rc : renderCounts) : Z * renderCounts :=
  let currentCount := nullish (rc !! id) 0 + 1 in
  (currentCount, <[id := currentCount]> rc).

(** What a render of the component puts on the screen: the label (absent
    for the inline counter) and the count. The timestamp of
    [RenderCounter] is wall-clock time and is left out. *)
Record Rendered := { label : option string; shown : Z }.

(** [RenderCounter({ label = 'Render count', showTimestamp = false })];
    [id] is the value [useId()] returns for the mounted instance. *)
Definition RenderCounter (label : option string) (id : string)
    (rc : renderCounts) : Rendered * renderCounts :=
  let '(currentCount, rc') := observe id rc in
  ({| label := Some (nullish label "Render count"); shown := currentCount |},
   rc').

(** [InlineRenderCounter()] *)
Definition InlineRenderCounter (id : string) (rc : renderCounts)
    : Rendered * renderCounts :=
  let '(currentCount, rc') := observe id rc in
  ({| label := None; shown := currentCount |}, rc').

(** Every way the module touches [renderCounts]: a render of one of the
    two exported components. The map itself is not exported. *)
Inductive Op :=
| RenderOp (label : option string) (id : string)
| InlineOp (id : string).

Definition opId (o : Op) : string :=
  match o with
  | RenderOp _ id => id
  | InlineOp id => id
  end.

Definition step (o : Op) (rc : renderCounts) : Rendered * renderCounts :=
  match o with
  | RenderOp l id => RenderCounter l id rc
  | InlineOp id => InlineRenderCounter id rc
  end.

(** A sequence of renders, in order; the result lists, for each render,
    the identity and the count it displayed. *)
Fixpoint run (ops : list Op) (rc : renderCounts)
    : list (string * Z) * renderCounts :=
  match ops with
  | [] => ([], rc)
  | o :: ops' =>
      let '(r, rc1) := step o rc in
      let '(out, rc2) := run ops' rc1 in
      ((opId o, shown r) :: out, rc2)
  end.

(** The counts displayed for one identity, in render order. *)
Definition countsOf (id : string) (out : list (string * Z)) : list Z :=
  snd <$> filter (λ p, p.1 = id) out.

(** 1, 2, ..., n shifted by [from]. *)
Definition countingFrom (from : Z) (n : nat) : list Z :=
  (λ k : nat, from + Z.of_nat k) <$> seq 1 n.

(** Every stored count is positive. *)
Definition positive_counts (rc : renderCounts) : Prop :=
  map_Forall (λ _ c, 0 < c) rc.

End Registry.

(** ** The timer demo (useEffectPlayground.tsx) *)

Module TimerDemo.

(** [String.prototype.padStart(targetLength, padString)]: the pad string
    is repeated, and cut, to fill the missing length. *)
Fixpoint fillWith (n : nat) (cur pad : string) : string :=
  match n with
  | O => ""
  | S n' =>
      match cur with
      | String c rest => String c (fillWith n' rest pad)
      | EmptyString =>
          match pad with
          | String c rest => String c (fillWith n' rest pad)
          | EmptyString => ""
          end
      end
  end.

Definition padStart (targetLength : nat) (padString : string) (s : string)
    : string :=
  fillWith (targetLength - String.length s)%nat padString padString +:+ s.

(** [String(n)] on an integer-valued number. *)
Definition String_ (n : Z) : string := pretty n.

(** The text of the timer span:
<<
    {String(Math.floor(seconds / 60)).padStart(2, '0')}:
    {String(seconds % 60).padStart(2, '0')}
>>
    [Math.floor] of a quotient by 60 is [Z.div]; JavaScript's [%] takes
    the sign of the dividend, which is [Z.rem]. *)
Definition display (seconds : Z) : string :=
  padStart 2 "0" (String_ (seconds `div` 60)) +:+ ":" +:+
  padStart 2 "0" (String_ (seconds `rem` 60)).

(** The browser's interval timers that carry this widget's tick
    callback. A handle returned by [setInterval] is a positive integer
    (HTML timers), never reused while active. *)
Record Timers := { active : gset positive; nextHandle : positive }.

Definition setInterval (t : Timers) : positive * Timers :=
  (nextHandle t,
   {| active := {[nextHandle t]} ∪ active t;
      nextHandle := (nextHandle t + 1)%positive |}).

Definition clearInterval (h : positive) (t : Timers) : Timers :=
  {| active := active t ∖ {[h]}; nextHandle := nextHandle t |}.

(** The widget: the two pieces of [useState] the timer uses, the
    [interval] variable captured by the cleanup closure of the effect
    that ran last ([None] for [null]), whether the component is mounted,
    and the browser timers. *)
Record State := {
  seconds : Z;
  isRunning : bool;
  interval : option positive;
  mounted : bool;
  timers : Timers
}.

(** Body of the timer effect:
<<
    let interval = null;
    if (isRunning) { interval = setInterval(() => setSeconds(p => p + 1), 1000); }
>>
*)
Definition runEffect (s : State) : State :=
  if isRunning s then
    let '(h, t) := setInterval (timers s) in
    {| seconds := seconds s; isRunning := isRunning s;
       interval := Some h; mounted := mounted s; timers := t |}
  else
    {| seconds := seconds s; isRunning := isRunning s;
       interval := None; mounted := mounted s; timers := timers s |}.

(** The function the effect returns:
    [() => { if (interval) { clearInterval(interval); } }]. A handle is
    positive, hence truthy; [null] is not. *)
Definition runCleanup (s : State) : State :=
  match interval s with
  | Some h =>
      {| seconds := seconds s; isRunning := isRunning s;
         interval := interval s; mounted := mounted s;
         timers := clearInterval h (timers s) |}
  | None => s
  end.

(** A committed render in which [seconds] and [isRunning] take new
    values. The dependency array is [[isRunning]]: when it changed, the
    previous cleanup runs, then the effect again. *)
Definition commit (seconds' : Z) (isRunning' : bool) (s : State) : State :=
  let s' := {| seconds := seconds'; isRunning := isRunning';
               interval := interval s; mounted := mounted s;
               timers := timers s |} in
  if Bool.eqb (isRunning s) isRunning' then s'
  else runEffect (runCleanup s').

(** First render ([useState(0)], [useState(false)]) and its effect. *)
Definition mount (firstHandle : positive) : State :=
  runEffect {| seconds := 0; isRunning := false; interval := None;
               mounted := true;
               timers := {| active := ∅; nextHandle := firstHandle |} |}.

Inductive Event :=
| ClickToggle        (* onClick={() => setIsRunning((prev) => !prev)} *)
| ClickReset         (* onClick={resetTimer} *)
| Rerender           (* any other state update of the page *)
| Fire (h : positive) (* the browser's timer with handle h elapses *)
| Unmount.

(** One event. A click lands only on a mounted widget. The interval
    callback is [setSeconds((prev) => prev + 1)]; it runs only for a
    handle that is still active, and the model lets it update [seconds]
    even after teardown, so that a timer left behind would show. *)
Definition step (e : Event) (s : State) : State :=
  match e with
  | ClickToggle =>
      if mounted s then commit (seconds s) (negb (isRunning s)) s else s
  | ClickReset =>
      if mounted s then commit 0 false s else s
  | Rerender =>
      if mounted s then commit (seconds s) (isRunning s) s else s
  | Fire h =>
      if decide (h ∈ active (timers s)) then
        {| seconds := seconds s + 1; isRunning := isRunning s;
           interval := interval s; mounted := mounted s;
           timers := timers s |}
      else s
  | Unmount =>
      if mounted s then
        let s' := runCleanup s in
        {| seconds := seconds s'; isRunning := isRunning s';
           interval := None; mounted := false; timers := timers s' |}
      else s
  end.

Definition run (evs : list Event) (s : State) : State :=
  foldl (λ s e, step e s) s evs.

(** What the span shows in state [s]. *)
Definition shown (s : State) : string := display (seconds s).

(** The decimal digit [d] as a character. *)
Definition digit (d : Z) : Ascii.ascii := Ascii.ascii_of_nat (48 + Z.to_nat d).

(** Two decimal digits, the tens first. *)
Definition twoDigits (k : Z) : string :=
  String (digit (k `div` 10)) (String (digit (k `mod` 10)) "").

(** The timers and the effect's closure agree: the only active interval
    is the one the pending cleanup will clear, and there is one exactly
    while the widget is mounted with the flag on. *)
Definition consistent (s : State) : Prop :=
  match interval s with
  | Some h =>
      active (timers s) = {[h]} ∧ isRunning s = true ∧ mounted s = true
  | None =>
      active (timers s) = ∅ ∧ (isRunning s = false ∨ mounted s = false)
  end.

End TimerDemo.

(** ** Theme state and the context accessors (ThemeContext.tsx) *)

Module ThemeContext.

(** [type Theme = 'light' | 'dark'] *)
Inductive Theme := light | dark.

#[global] Instance Theme_eq_dec : EqDecision Theme.
Proof. solve_decision. Defined.

(** The string a [Theme] is at run time. *)
Definition themeString (t : Theme) : string :=
  match t with
  | light => "light"
  | dark => "dark"
  end.

Definition THEME_STORAGE_KEY : string := "reacthookstudio-theme".

(** What the provider reads and writes of the browser: [localStorage],
    the class list of the document's root element, and whether the media
    query [(prefers-color-scheme: dark)] matches. *)
Record Window := {
  localStorage : gmap string string;
  classList : gset string;
  prefersDark : bool
}.

(** [getInitialTheme()]; the argument is [None] where [window] is
    undefined. *)
Definition getInitialTheme (w : option Window) : Theme :=
  match w with
  | None => light
  | Some w =>
      let systemTheme := if prefersDark w then dark else light in
      match localStorage w !! THEME_STORAGE_KEY with
      | Some storedTheme =>
          if decide (storedTheme = "light") then light
          else if decide (storedTheme = "dark") then dark
          else systemTheme
      | None => systemTheme
      end
  end.

(** The provider's [useState] cell together with the browser. *)
Record State := { theme : Theme; window : Window }.

(** The first effect, with dependency array [[theme]]:
<<
    root.classList.remove('light', 'dark');
    root.classList.add(theme);
    localStorage.setItem(THEME_STORAGE_KEY, theme);
>>
*)
Definition applyTheme (s : State) : State :=
  let w := window s in
  {| theme := theme s;
     window :=
       {| localStorage :=
            <[THEME_STORAGE_KEY := themeString (theme s)]> (localStorage w);
          classList :=
            {[themeString (theme s)]} ∪ (classList w ∖ {["light"; "dark"]});
          prefersDark := prefersDark w |} |}.

(** [setThemeState(next)]: React keeps the state and runs no effect when
    the value is the one it holds; otherwise the component renders with
    the new theme and the [[theme]] effect runs. *)
Definition setThemeState (next : Theme) (s : State) : State :=
  if decide (next = theme s) then s
  else applyTheme {| theme := next; window := window s |}.

(** Mounting [ThemeProvider] in a browser: the lazy initial state, then
    the effects of the first render. *)
Definition mount (w : Window) : State :=
  applyTheme {| theme := getInitialTheme (Some w); window := w |}.

(** The two callbacks of the context value, and the media query's
    change event the second effect listens to. *)
Inductive Op :=
| ToggleTheme
| SetTheme (newTheme : Theme)
| SystemChange (matches : bool).

(** [(prev) => (prev === 'light' ? 'dark' : 'light')] *)
Definition toggled (prev : Theme) : Theme :=
  if decide (prev = light) then dark else light.

Definition toggleTheme (s : State) : State := setThemeState (toggled (theme s)) s.

Definition setTheme (newTheme : Theme) (s : State) : State :=
  setThemeState newTheme s.

(** [handleChange(event)]: [!storedTheme] holds for a missing key and
    for the empty string. *)
Definition handleChange (matches : bool) (s : State) : State :=
  let w := window s in
  let s' := {| theme := theme s;
               window := {| localStorage := localStorage w;
                            classList := classList w;
                            prefersDark := matches |} |} in
  match localStorage w !! THEME_STORAGE_KEY with
  | Some (String _ _) => s'
  | Some EmptyString | None =>
      setThemeState (if matches then dark else light) s'
  end.

Definition step (o : Op) (s : State) : State :=
  match o with
  | ToggleTheme => toggleTheme s
  | SetTheme t => setTheme t s
  | SystemChange m => handleChange m s
  end.

Definition run (ops : list Op) (s : State) : State :=
  foldl (λ s o, step o s) s ops.

(** The value last requested of the theme state by a sequence of
    callbacks, starting from [t]. *)
Fixpoint lastSet (t : Theme) (ops : list Op) : Theme :=
  match ops with
  | [] => t
  | ToggleTheme :: ops' => lastSet (toggled t) ops'
  | SetTheme t' :: ops' => lastSet t' ops'
  | SystemChange _ :: ops' => lastSet t ops'
  end.

(** The storage key holds the theme the provider's state holds. *)
Definition persisted (s : State) : Prop :=
  localStorage (window s) !! THEME_STORAGE_KEY = Some (themeString (theme s)).

(** A call that returns or throws [new Error(message)]. *)
Inductive Result (A : Type) :=
| Returns (a : A)
| Throws (message : string).
Arguments Returns {A} a.
Arguments Throws {A} message.

(** [useContext(C)] in a component: the value of the nearest enclosing
    [C.Provider], or the default given to [createContext]. [providers]
    lists the values of the enclosing providers, nearest first. *)
Definition useContext {A} (defaultValue : A) (providers : list A) : A :=
  match providers with
  | v :: _ => v
  | [] => defaultValue
  end.

(** [ThemeContextValue]; the two callbacks are represented by the
    operation they perform on the provider. *)
Record ThemeContextValue := {
  ctxTheme : Theme;
  ctxToggleTheme : Op;
  ctxSetTheme : Theme → Op
}.

(** The [value] object [ThemeProvider] hands to [ThemeContext.Provider]. *)
Definition providerValue (s : State) : ThemeContextValue :=
  {| ctxTheme := theme s; ctxToggleTheme := ToggleTheme; ctxSetTheme := SetTheme |}.

(** [createContext<ThemeContextValue | undefined>(undefined)]:
    [None] is [undefined]. *)
Definition ThemeContextDefault : option ThemeContextValue := None.

(** [useTheme()] *)
Definition useTheme (providers : list (option ThemeContextValue))
    : Result ThemeContextValue :=
  match useContext ThemeContextDefault providers with
  | None => Throws "useTheme must be used within a ThemeProvider"
  | Some context => Returns context
  end.

(** The enclosing [ThemeProvider]s of a component, nearest first, as the
    context sees them. *)
Definition insideProviders (ps : list State) : list (option ThemeContextValue) :=
  (λ s, Some (providerValue s)) <$> ps.

(** [useExampleUser()] of useContextPlayground.tsx, over
    [createContext<UserContextValue | null>(null)]; an object is truthy,
    so [!context] holds for [null] only. *)
Record UserContextValue := { name : string; email : string; role : string }.

Definition useExampleUser (providers : list (option UserContextValue))
    : Result UserContextValue :=
  match useContext None providers with
  | None => Throws "useExampleUser must be used within ExampleUserProvider"
  | Some context => Returns context
  end.

End ThemeContext.

(** ** The route table (router.tsx) *)

Module Router.

(** The elements the routes mount. *)
Inductive Element :=
| HomePage
| UseStatePlayground
| UseEffectPlayground
| UseReducerPlayground
| UseRefPlayground
| UseMemoPlayground
| UseCallbackPlayground
| UseContextPlayground
| Navigate (to : string) (replace : bool).

(** A child route object: [{ index: true, element }] or
    [{ path, element }]. *)
Record Route := { index : bool; path : option string; element : Element }.

(** The path of the layout route all others are children of. *)
Definition rootPath : string := "/".

(** The [children] array of [createBrowserRouter([{ path: '/', ... }])],
    in source order. *)
Definition children : list Route :=
  [ {| index := true; path := None; element := HomePage |};
    {| index := false; path := Some "hooks/use-state"; element := UseStatePlayground |};
    {| index := false; path := Some "hooks/use-effect"; element := UseEffectPlayground |};
    {| index := false; path := Some "hooks/use-reducer"; element := UseReducerPlayground |};
    {| index := false; path := Some "hooks/use-ref"; element := UseRefPlayground |};
    {| index := false; path := Some "hooks/use-memo"; element := UseMemoPlayground |};
    {| index := false; path := Some "hooks/use-callback"; element := UseCallbackPlayground |};
    {| index := false; path := Some "hooks/use-context"; element := UseContextPlayground |};
    {| index := false; path := Some "*"; element := Navigate "/" true |} ].

(** The [path] fields of [hooksList] (data/hooksList.ts), which the
    sidebar links to, in source order. *)
Definition hooksListPaths : list string :=
  [ "/hooks/use-state"; "/hooks/use-effect"; "/hooks/use-reducer";
    "/hooks/use-ref"; "/hooks/use-memo"; "/hooks/use-callback";
    "/hooks/use-context" ].

Definition isSplat (r : Route) : bool :=
  match path r with
  | Some p => String.eqb p "*"
  | None => false
  end.

(** The absolute pattern of a child of the root route. *)
Definition fullPath (r : Route) : string :=
  match path r with
  | Some p => rootPath +:+ p
  | None => rootPath
  end.

(** The routes with a pattern of their own: all but the catch-all. *)
Definition declared : list Route := filter (λ r, isSplat r = false) children.

(** The router tries the more specific branches first: a static path
    outranks the index route, which outranks a splat; routes of equal
    rank keep their source order. *)
Definition rank (r : Route) : nat :=
  if isSplat r then 0%nat else if index r then 1%nat else 2%nat.

Definition ranked (rs : list Route) : list Route :=
  filter (λ r, rank r = 2%nat) rs ++
  filter (λ r, rank r = 1%nat) rs ++
  filter (λ r, rank r = 0%nat) rs.

Section Matching.

(** The routing library's test of a location's pathname against an
    absolute pattern without parameters, anchored at both ends. It
    belongs to the library, not to this repository. *)
Variable matchPath : string → string → bool.

(** A splat matches every pathname below the root. *)
Definition matches (pathname : string) (r : Route) : bool :=
  if isSplat r then true else matchPath (fullPath r) pathname.

(** The element mounted for a location: that of the first matching
    route in rank order. *)
Definition resolve (pathname : string) : option Element :=
  element <$> List.find (matches pathname) (ranked children).

(** What ends up on screen: a [Navigate] element replaces the location
    when it renders, and the new location is resolved in turn. *)
Definition landing (pathname : string) : option Element :=
  match resolve pathname with
  | Some (Navigate to _) => resolve to
  | other => other
  end.

End Matching.

(** A matcher that accepts a pathname equal to the pattern. *)
Definition matchExact (pattern pathname : string) : bool :=
  String.eqb pattern pathname.

End Router.

(** ** The reducers of the useReducer demo (useReducerPlayground.tsx) *)

Module Reducers.

(** [interface CounterState] *)
Record CounterState := { count : Z; history : list Z }.

(** [interface CounterAction { type; payload?: number }]; [type] is kept
    a string so that the [default] branch of the reducer has inhabitants. *)
Record CounterAction := { type : string; payload : option Z }.

Definition initialState : CounterState := {| count := 0; history := [] |}.

Definition counterReducer (state : CounterState) (action : CounterAction)
    : CounterState :=
  if decide (type action = "INCREMENT") then
    {| count := count state + 1;
       history := history state ++ [count state + 1] |}
  else if decide (type action = "DECREMENT") then
    {| count := count state - 1;
       history := history state ++ [count state - 1] |}
  else if decide (type action = "RESET") then
    initialState
  else if decide (type action = "SET") then
    {| count := Registry.nullish (payload action) 0;
       history := history state ++ [Registry.nullish (payload action) 0] |}
  else state.

(** [useReducer(counterReducer, initialState)] after a sequence of
    dispatches. *)
Definition counterRun (actions : list CounterAction) : CounterState :=
  foldl counterReducer initialState actions.

(** The actions that record an update. *)
Definition isUpdate (action : CounterAction) : bool :=
  bool_decide (type action = "INCREMENT") ||
  bool_decide (type action = "DECREMENT") ||
  bool_decide (type action = "SET").

(** The number of updates dispatched since the last RESET (or since the
    start); [n] is the number before [actions]. *)
Fixpoint updatesSinceReset (n : nat) (actions : list CounterAction) : nat :=
  match actions with
  | [] => n
  | a :: rest =>
      if bool_decide (type a = "RESET") then updatesSinceReset 0 rest
      else if isUpdate a then updatesSinceReset (S n) rest
      else updatesSinceReset n rest
  end.

(** The history holds [n] entries and, when it is not empty, ends with
    the current count; with an empty history the count is 0. *)
Definition tracks (state : CounterState) (n : nat) : Prop :=
  length (history state) = n ∧
  match last (history state) with
  | Some latest => latest = count state
  | None => count state = 0
  end.

(** [interface Todo], [interface TodoState] *)
Record Todo := { id : Z; text : string; completed : bool }.
Record TodoState := { todos : list Todo; nextId : Z }.

(** [type TodoAction]; [Unrecognised] stands for an object whose [type]
    is none of the four, which only the [default] branch handles. *)
Inductive TodoAction :=
| ADD (payload : string)
| TOGGLE (payload : Z)
| DELETE (payload : Z)
| CLEAR_COMPLETED
| Unrecognised (type : string).

Definition todoInitialState : TodoState := {| todos := []; nextId := 1 |}.

Definition todoReducer (state : TodoState) (action : TodoAction) : TodoState :=
  match action with
  | ADD payload =>
      {| todos := todos state ++
                  [ {| id := nextId state; text := payload; completed := false |} ];
         nextId := nextId state + 1 |}
  | TOGGLE payload =>
      {| todos := (λ todo,
                    if decide (id todo = payload)
                    then {| id := id todo; text := text todo;
                            completed := negb (completed todo) |}
                    else todo) <$> todos state;
         nextId := nextId state |}
  | DELETE payload =>
      {| todos := filter (λ todo, id todo ≠ payload) (todos state);
         nextId := nextId state |}
  | CLEAR_COMPLETED =>
      {| todos := filter (λ todo, completed todo = false) (todos state);
         nextId := nextId state |}
  | Unrecognised _ => state
  end.

Definition todoRun (actions : list TodoAction) : TodoState :=
  foldl todoReducer todoInitialState actions.

Definition ids (state : TodoState) : list Z := id <$> todos state.

(** The ids in use are pairwise distinct and all below [nextId]. *)
Definition freshIds (state : TodoState) : Prop :=
  NoDup (ids state) ∧ Forall (λ i, i < nextId state) (ids state).

End Reducers.

(** ** JavaScript built-ins the remaining components use *)

Module JS.

(** [Array.prototype.slice(start)]: a negative [start] counts from the
    end, and either way the index is clamped to the array. *)
Definition slice {A} (start : Z) (l : list A) : list A :=
  let len := Z.of_nat (length l) in
  let k := if start <? 0 then Z.max (len + start) 0 else Z.min start len in
  drop (Z.to_nat k) l.

(** [Array.prototype.filter((x, i) => p(x, i))], the index starting at
    [i]. *)
Fixpoint filteri {A} (p : A → nat → bool) (i : nat) (l : list A) : list A :=
  match l with
  | [] => []
  | x :: l' =>
      if p x i then x :: filteri p (S i) l' else filteri p (S i) l'
  end.

(** A string in a condition: true unless empty. *)
Definition truthy (s : string) : bool :=
  match s with
  | EmptyString => false
  | String _ _ => true
  end.

(** [String.prototype.trim] as far as ASCII goes: tab, line feed,
    vertical tab, form feed, carriage return and space are dropped at both
    ends. The theorems below hold for any trimming function; this one
    serves to run the components on examples. *)
Definition isAsciiWhiteSpace (c : Ascii.ascii) : bool :=
  let n := Ascii.nat_of_ascii c in
  ((9 <=? n) && (n <=? 13))%nat || (n =? 32)%nat.

Fixpoint trimStart (s : string) : string :=
  match s with
  | String c rest => if isAsciiWhiteSpace c then trimStart rest else s
  | EmptyString => EmptyString
  end.

Definition trimAscii (s : string) : string :=
  String.rev (trimStart (String.rev (trimStart s))).

End JS.

(** ** The render registry after a sequence of renders *)

Module RegistryRuns.

(** How many of the renders are renders of [id]. *)
Definition rendersOf (id : string) (ops : list Registry.Op) : nat :=
  length (filter (λ o, Registry.opId o = id) ops).

End RegistryRuns.

(** ** The effect log and the dependency visualiser (useEffectPlayground.tsx) *)

Module EffectLog.

(** [interface DependencyItem] *)
Record DependencyItem := { name : string; value : string; hasChanged : bool }.

(** The three pieces of state the [[count]] effect touches. *)
Record State := {
  count : Z;
  effectLog : list string;
  dependencies : list DependencyItem
}.

(** The line the effect logs; [timestamp] is what
    [new Date().toLocaleTimeString()] returned when the effect ran. *)
Definition logLine (timestamp : string) (count : Z) : string :=
  "[" +:+ timestamp +:+ "] Effect ran! Count is now: " +:+ TimerDemo.String_ count.

(** Body of the effect with dependency array [[count]]:
<<
    setEffectLog((prev) => [...prev.slice(-4), `[${timestamp}] ...${count}`]);
    setDependencies([{ name: 'count', value: String(count), hasChanged: true }]);
>>
*)
Definition runEffect (timestamp : string) (s : State) : State :=
  {| count := count s;
     effectLog := JS.slice (-4) (effectLog s) ++ [logLine timestamp (count s)];
     dependencies :=
       [ {| name := "count"; value := TimerDemo.String_ (count s);
            hasChanged := true |} ] |}.

(** The cleanup the effect returns:
    [prev.map((d) => (d.name === 'count' ? { ...d, hasChanged: false } : d))]. *)
Definition runCleanup (s : State) : State :=
  {| count := count s;
     effectLog := effectLog s;
     dependencies :=
       (λ d, if decide (name d = "count")
             then {| name := name d; value := value d; hasChanged := false |}
             else d) <$> dependencies s |}.

(** First render and its effect. *)
Definition mount (timestamp : string) : State :=
  runEffect timestamp {| count := 0; effectLog := []; dependencies := [] |}.

Inductive Event :=
| ClickIncrement (timestamp : string)  (* setCount((prev) => prev + 1) *)
| ClickClear.                          (* clearLog *)

(** One event, up to the render that settles it. After an increment the
    dependency changed: the cleanup runs, then the effect. *)
Definition step (e : Event) (s : State) : State :=
  match e with
  | ClickIncrement timestamp =>
      runEffect timestamp
        (runCleanup {| count := count s + 1; effectLog := effectLog s;
                       dependencies := dependencies s |})
  | ClickClear =>
      {| count := count s; effectLog := []; dependencies := dependencies s |}
  end.

Definition run (evs : list Event) (s : State) : State :=
  foldl (λ s e, step e s) s evs.


End EffectLog.

(** ** The hook list and its grouping in the sidebar (data/hooksList.ts, Sidebar.tsx) *)

Module HooksList.

(** [type HookCategory] *)
Inductive HookCategory := state | effect | ref | memoization | context.

#[global] Instance HookCategory_eq_dec : EqDecision HookCategory.
Proof. solve_decision. Defined.

(** [interface HookInfo] *)
Record HookInfo := {
  id : string;
  name : string;
  description : string;
  category : HookCategory;
  path : string;
  icon : string
}.

#[global] Instance HookInfo_eq_dec : EqDecision HookInfo.
Proof. solve_decision. Defined.

Definition hooksList : list HookInfo :=
  [ {| id := "useState"; name := "useState";
       description := "State management fundamentals for functional components";
       category := state; path := "/hooks/use-state"; icon := "📦" |};
    {| id := "useEffect"; name := "useEffect";
       description := "Handle side effects and lifecycle events";
       category := effect; path := "/hooks/use-effect"; icon := "⚡" |};
    {| id := "useReducer"; name := "useReducer";
       description := "Complex state logic with reducer pattern";
       category := state; path := "/hooks/use-reducer"; icon := "🔄" |};
    {| id := "useRef"; name := "useRef";
       description := "Access DOM elements and persist mutable values";
       category := ref; path := "/hooks/use-ref"; icon := "🎯" |};
    {| id := "useMemo"; name := "useMemo";
       description := "Memoize expensive computations";
       category := memoization; path := "/hooks/use-memo"; icon := "🧠" |};
    {| id := "useCallback"; name := "useCallback";
       description := "Memoize callback functions";
       category := memoization; path := "/hooks/use-callback"; icon := "🔗" |};
    {| id := "useContext"; name := "useContext";
       description := "Consume context without prop drilling";
       category := context; path := "/hooks/use-context"; icon := "🌐" |} ].

(** [hooksList.find((hook) => hook.id === id)]; [None] is [undefined]. *)
Definition getHookById (id' : string) : option HookInfo :=
  List.find (λ hook, bool_decide (id hook = id')) hooksList.

(** [hooksList.filter((hook) => hook.category === category)] *)
Definition getHooksByCategory (category' : HookCategory) : list HookInfo :=
  filter (λ hook, category hook = category') hooksList.

(** The accumulator of the sidebar's [reduce]: an object keyed by
    category, its keys in insertion order. *)
Definition Groups := list (HookCategory * list HookInfo).

(** [acc[category]] *)
Definition lookupGroup (c : HookCategory) (acc : Groups) : option (list HookInfo) :=
  snd <$> List.find (λ g, bool_decide (g.1 = c)) acc.

(** [if (!acc[category]) { acc[category] = []; }]: an array is truthy, so
    the branch is taken for a missing key only, which is added last. *)
Definition ensureGroup (c : HookCategory) (acc : Groups) : Groups :=
  match lookupGroup c acc with
  | Some _ => acc
  | None => acc ++ [(c, [])]
  end.

(** [acc[category].push(hook)] *)
Definition pushToGroup (c : HookCategory) (hook : HookInfo) (acc : Groups) : Groups :=
  (λ g, if decide (g.1 = c) then (g.1, g.2 ++ [hook]) else g) <$> acc.

(** The reducer callback and the [reduce] over a list of hooks. *)
Definition addHook (acc : Groups) (hook : HookInfo) : Groups :=
  pushToGroup (category hook) hook (ensureGroup (category hook) acc).

Definition groupHooks (hooks : list HookInfo) : Groups := foldl addHook [] hooks.

(** [groupedHooks] and [categories = Object.keys(groupedHooks)] of the
    sidebar. *)
Definition groupedHooks : Groups := groupHooks hooksList.
Definition categories : list HookCategory := fst <$> groupedHooks.

(** The navigation links in the order the sidebar renders them: category
    by category, [to={hook.path}]. *)
Definition sidebarLinks : list HookInfo := concat (snd <$> groupedHooks).

End HooksList.

(** ** The theme button of the layout and the sidebar (Layout.tsx, Sidebar.tsx) *)

Module Layout.

(** [aria-label={`Switch to ${theme === 'light' ? 'dark' : 'light'} mode`}] *)
Definition themeButtonLabel (theme : ThemeContext.Theme) : string :=
  "Switch to " +:+
  (if decide (theme = ThemeContext.light) then "dark" else "light") +:+ " mode".

End Layout.

(** ** The useReducer page around its reducers (useReducerPlayground.tsx) *)

Module ReducerPlayground.

(** [todoState.todos.filter((t) => t.completed).length] *)
Definition completedCount (ts : Reducers.TodoState) : nat :=
  length (filter (λ t, Reducers.completed t = true) (Reducers.todos ts)).

(** The values under "History": [state.history.slice(-10)], rendered when
    [state.history.length > 0]; otherwise the page says "No history yet". *)
Definition historyChips (cs : Reducers.CounterState) : list Z :=
  JS.slice (-10) (Reducers.history cs).

(** The three hooks of the component. *)
Record State := {
  state : Reducers.CounterState;
  todoState : Reducers.TodoState;
  newTodo : string
}.

Definition initial : State :=
  {| state := Reducers.initialState;
     todoState := Reducers.todoInitialState;
     newTodo := "" |}.

(** "Clear completed" is rendered under
    [todoState.todos.length > 0 && completedCount > 0]. *)
Definition clearCompletedShown (s : State) : bool :=
  bool_decide (0 < length (Reducers.todos (todoState s)))%nat &&
  bool_decide (0 < completedCount (todoState s))%nat.

Inductive Event :=
| TypeTodo (text : string)        (* onChange: setNewTodo(e.target.value) *)
| KeyDown (key : string)          (* e.key === 'Enter' && handleAddTodo() *)
| ClickAdd                        (* handleAddTodo *)
| ClickCheckbox (id : Z)          (* TOGGLE, on the row of todo id *)
| ClickDelete (id : Z)            (* DELETE, on the row of todo id *)
| ClickClearCompleted             (* CLEAR_COMPLETED *)
| ClickDecrement                  (* { type: 'DECREMENT' } *)
| ClickIncrement                  (* { type: 'INCREMENT' } *)
| ClickSetTo10                    (* { type: 'SET', payload: 10 } *)
| ClickReset.                     (* { type: 'RESET' } *)

Section WithTrim.

(** [String.prototype.trim] *)
Variable trim : string → string.

(** [handleAddTodo]:
<<
    if (newTodo.trim()) {
      todoDispatch({ type: 'ADD', payload: newTodo.trim() });
      setNewTodo('');
    }
>>
*)
Definition handleAddTodo (s : State) : State :=
  if JS.truthy (trim (newTodo s)) then
    {| state := state s;
       todoState :=
         Reducers.todoReducer (todoState s) (Reducers.ADD (trim (newTodo s)));
       newTodo := "" |}
  else s.

Definition dispatch (action : Reducers.CounterAction) (s : State) : State :=
  {| state := Reducers.counterReducer (state s) action;
     todoState := todoState s; newTodo := newTodo s |}.

Definition todoDispatch (action : Reducers.TodoAction) (s : State) : State :=
  {| state := state s;
     todoState := Reducers.todoReducer (todoState s) action;
     newTodo := newTodo s |}.

(** One user event. A row's checkbox and Delete button exist for the
    todos on screen only, and "Clear completed" only while it is shown. *)
Definition step (e : Event) (s : State) : State :=
  match e with
  | TypeTodo text =>
      {| state := state s; todoState := todoState s; newTodo := text |}
  | KeyDown key => if decide (key = "Enter") then handleAddTodo s else s
  | ClickAdd => handleAddTodo s
  | ClickCheckbox id =>
      if decide (id ∈ Reducers.ids (todoState s))
      then todoDispatch (Reducers.TOGGLE id) s else s
  | ClickDelete id =>
      if decide (id ∈ Reducers.ids (todoState s))
      then todoDispatch (Reducers.DELETE id) s else s
  | ClickClearCompleted =>
      if clearCompletedShown s
      then todoDispatch Reducers.CLEAR_COMPLETED s else s
  | ClickDecrement =>
      dispatch {| Reducers.type := "DECREMENT"; Reducers.payload := None |} s
  | ClickIncrement =>
      dispatch {| Reducers.type := "INCREMENT"; Reducers.payload := None |} s
  | ClickSetTo10 =>
      dispatch {| Reducers.type := "SET"; Reducers.payload := Some 10 |} s
  | ClickReset =>
      dispatch {| Reducers.type := "RESET"; Reducers.payload := None |} s
  end.

Definition run (evs : list Event) (s : State) : State :=
  foldl (λ s e, step e s) s evs.

End WithTrim.

(** Every todo text satisfies [R], and the ids are distinct and below
    [nextId]. *)
Definition typedTexts (R : string → Prop) (s : State) : Prop :=
  Forall (λ todo, R (Reducers.text todo)) (Reducers.todos (todoState s)) ∧
  Reducers.freshIds (todoState s).

End ReducerPlayground.

(** ** The useState page (useStatePlayground.tsx) *)

Module StatePlayground.

Record State := {
  count : Z;
  text : string;
  items : list string;
  newItem : string
}.

Definition initial : State :=
  {| count := 0; text := ""; items := ["Apple"; "Banana"]; newItem := "" |}.

(** [handleRemoveItem(index)]:
    [setItems((prev) => prev.filter((_, i) => i !== index))]. *)
Definition handleRemoveItem (index : Z) (s : State) : State :=
  {| count := count s; text := text s;
     items := JS.filteri (λ _ i, negb (Z.of_nat i =? index)) 0 (items s);
     newItem := newItem s |}.

Inductive Event :=
| ClickMinus                    (* setCount((prev) => prev - 1) *)
| ClickPlus                     (* setCount((prev) => prev + 1) *)
| ClickReset                    (* setCount(0) *)
| TypeText (value : string)     (* setText(e.target.value) *)
| TypeNewItem (value : string)  (* setNewItem(e.target.value) *)
| KeyDown (key : string)        (* e.key === 'Enter' && handleAddItem() *)
| ClickAdd                      (* handleAddItem *)
| ClickRemove (index : nat).    (* handleRemoveItem(index), on row index *)

Section WithTrim.

Variable trim : string → string.

(** [handleAddItem]:
<<
    if (newItem.trim()) {
      setItems((prev) => [...prev, newItem.trim()]);
      setNewItem('');
    }
>>
*)
Definition handleAddItem (s : State) : State :=
  if JS.truthy (trim (newItem s)) then
    {| count := count s; text := text s;
       items := items s ++ [trim (newItem s)];
       newItem := "" |}
  else s.

(** One user event; a Remove button exists for the rows on screen only. *)
Definition step (e : Event) (s : State) : State :=
  match e with
  | ClickMinus =>
      {| count := count s - 1; text := text s; items := items s;
         newItem := newItem s |}
  | ClickPlus =>
      {| count := count s + 1; text := text s; items := items s;
         newItem := newItem s |}
  | ClickReset =>
      {| count := 0; text := text s; items := items s; newItem := newItem s |}
  | TypeText value =>
      {| count := count s; text := value; items := items s;
         newItem := newItem s |}
  | TypeNewItem value =>
      {| count := count s; text := text s; items := items s;
         newItem := value |}
  | KeyDown key => if decide (key = "Enter") then handleAddItem s else s
  | ClickAdd => handleAddItem s
  | ClickRemove index =>
      if decide (index < length (items s))%nat
      then handleRemoveItem (Z.of_nat index) s else s
  end.

Definition run (evs : list Event) (s : State) : State :=
  foldl (λ s e, step e s) s evs.

End WithTrim.

End StatePlayground.

(** ** The useCallback page (useCallbackPlayground.tsx) *)

Module CallbackPlayground.

Record Item := { id : Z; text : string }.

Record State := {
  count : Z;
  name : string;
  items : list Item;
  nextId : Z
}.

Definition initial : State :=
  {| count := 0; name := "";
     items := [ {| id := 1; text := "Learn useCallback" |};
                {| id := 2; text := "Understand memoization" |};
                {| id := 3; text := "Build great apps" |} ];
     nextId := 4 |}.

(** [handleDelete(id)]:
    [setItems((prev) => prev.filter((item) => item.id !== id))]. *)
Definition handleDelete (id' : Z) (s : State) : State :=
  {| count := count s; name := name s;
     items := filter (λ item, id item ≠ id') (items s);
     nextId := nextId s |}.

(** [handleAdd]; its dependency array is [[nextId]], so the callback the
    button holds sees the [nextId] of the render on screen:
<<
    setItems((prev) => [...prev, { id: nextId, text: `New item ${nextId}` }]);
    setNextId((n) => n + 1);
>>
*)
Definition handleAdd (s : State) : State :=
  {| count := count s; name := name s;
     items := items s ++
              [ {| id := nextId s;
                   text := "New item " +:+ TimerDemo.String_ (nextId s) |} ];
     nextId := nextId s + 1 |}.

Inductive Event :=
| ClickIncrement              (* handleIncrementBad / handleIncrementGood *)
| TypeName (value : string)   (* setName(e.target.value) *)
| ClickDeleteItem (id : Z)    (* onDelete(id), on the row of item id *)
| ClickAddItem.               (* handleAdd *)

(** One user event; a Delete button exists for the items on screen only. *)
Definition step (e : Event) (s : State) : State :=
  match e with
  | ClickIncrement =>
      {| count := count s + 1; name := name s; items := items s;
         nextId := nextId s |}
  | TypeName value =>
      {| count := count s; name := value; items := items s;
         nextId := nextId s |}
  | ClickDeleteItem id' =>
      if decide (id' ∈ id <$> items s) then handleDelete id' s else s
  | ClickAddItem => handleAdd s
  end.

Definition run (evs : list Event) (s : State) : State :=
  foldl (λ s e, step e s) s evs.


End CallbackPlayground.

(** ** The useRef page (useRefPlayground.tsx) *)

Module RefPlayground.

(** The state hooks of the values on screen and the [clickCount] ref,
    whose [current] no render depends on. *)
Record State := {
  count : Z;
  previousValue : option Z;
  displayedRefValue : Z;
  clickCount : Z
}.

(** The effect with dependency array [[count]]: [setPreviousValue(count)]. *)
Definition storePrevious (s : State) : State :=
  {| count := count s; previousValue := Some (count s);
     displayedRefValue := displayedRefValue s; clickCount := clickCount s |}.

(** First render and its effect, up to the render that settles it. *)
Definition mount : State :=
  storePrevious {| count := 0; previousValue := None;
                   displayedRefValue := 0; clickCount := 0 |}.

Inductive Event :=
| ClickIncrementRef   (* handleRefClick: clickCount.current += 1 *)
| ClickShowValue      (* showRefValue: setDisplayedRefValue(clickCount.current) *)
| ClickIncrement      (* setCount((c) => c + 1) *)
| ClickDecrement.     (* setCount((c) => c - 1) *)

#[global] Instance RefEvent_eq_dec : EqDecision Event.
Proof. solve_decision. Defined.

(** One user event, up to the render that settles it: a changed [count]
    runs the effect again. *)
Definition step (e : Event) (s : State) : State :=
  match e with
  | ClickIncrementRef =>
      {| count := count s; previousValue := previousValue s;
         displayedRefValue := displayedRefValue s;
         clickCount := clickCount s + 1 |}
  | ClickShowValue =>
      {| count := count s; previousValue := previousValue s;
         displayedRefValue := clickCount s; clickCount := clickCount s |}
  | ClickIncrement =>
      storePrevious {| count := count s + 1; previousValue := previousValue s;
                       displayedRefValue := displayedRefValue s;
                       clickCount := clickCount s |}
  | ClickDecrement =>
      storePrevious {| count := count s - 1; previousValue := previousValue s;
                       displayedRefValue := displayedRefValue s;
                       clickCount := clickCount s |}
  end.

Definition run (evs : list Event) (s : State) : State :=
  foldl (λ s e, step e s) s evs.

(** The text under "Previous": [{previousValue ?? '-'}]. *)
Definition previousShown (s : State) : string :=
  match previousValue s with
  | Some v => TimerDemo.String_ v
  | None => "-"
  end.

(** The ref clicks among the events. *)
Definition refClicks (evs : list Event) : nat :=
  length (filter (λ e, e = ClickIncrementRef) evs).

End RefPlayground.

(** ** The document's root element under the theme provider *)

Module ThemeDocument.

(** The root element carries the class of the theme in force, not the
    other one, and the classes [cl0] it had besides. *)
Definition themed (cl0 : gset string) (s : ThemeContext.State) : Prop :=
  ThemeContext.classList (ThemeContext.window s)
    = {[ThemeContext.themeString (ThemeContext.theme s)]}
      ∪ (cl0 ∖ {["light"; "dark"]}).

End ThemeDocument.

(** * Properties *)

(** ** Render registry *)

Section RegistryFacts.
Import Registry.
Implicit Types (id : string) (rc : gmap string Z) (ops : list Op).

Lemma step_observe o rc :
  (step o rc).2 = (observe (opId o) rc).2 ∧
  shown (step o rc).1 = (observe (opId o) rc).1.
Proof. by destruct o. Qed.

Lemma run_cons o ops rc :
  run (o :: ops) rc =
    ((opId o, (observe (opId o) rc).1) :: (run ops (observe (opId o) rc).2).1,
     (run ops (observe (opId o) rc).2).2).
Proof.
  destruct (step_observe o rc) as [Hrc Hshown].
  simpl. destruct (step o rc) as [r rc1]; simpl in *; subst rc1.
  destruct (run ops _) as [out rc2]; simpl. by rewrite Hshown.
Qed.

Lemma run_app ops1 ops2 rc :
  (run (ops1 ++ ops2) rc).2 = (run ops2 (run ops1 rc).2).2.
Proof.
  revert rc; induction ops1 as [|o ops1 IH]; intros rc; [done|].
  rewrite <- app_comm_cons, !run_cons. simpl. apply IH.
Qed.

Lemma observe_lookup_ne id id' rc :
  id ≠ id' → (observe id rc).2 !! id' = rc !! id'.
Proof. intros Hne. unfold observe; simpl. by rewrite lookup_insert_ne. Qed.

Lemma observe_lookup_eq id rc :
  (observe id rc).2 !! id = Some (nullish (rc !! id) 0 + 1).
Proof. unfold observe; simpl. by rewrite lookup_insert_eq. Qed.

Lemma countingFrom_S from n :
  countingFrom from (S n) = (from + 1) :: countingFrom (from + 1) n.
Proof.
  unfold countingFrom. simpl. f_equal.
  rewrite <- fmap_S_seq, <- list_fmap_compose.
  apply list_fmap_ext; intros _ k _; simpl. lia.
Qed.

(** The counts one identity displays continue from the stored count,
    whatever other identities render in between. *)
Lemma countsOf_run id ops rc :
  countsOf id (run ops rc).1 =
    countingFrom (nullish (rc !! id) 0)
                 (length (filter (λ o, opId o = id) ops)).
Proof.
  revert rc; induction ops as [|o ops IH]; intros rc; [done|].
  rewrite run_cons. unfold countsOf in *. simpl.
  rewrite filter_cons, (filter_cons _ o). simpl.
  destruct (decide (opId o = id)) as [->|Hne]; simpl.
  - by rewrite countingFrom_S, IH, lookup_insert_eq.
  - by rewrite IH, lookup_insert_ne.
Qed.

Lemma observe_positive id rc :
  positive_counts rc → positive_counts (observe id rc).2.
Proof.
  intros Hpos. unfold observe; simpl. apply map_Forall_insert_2; [|done].
  destruct (rc !! id) as [c|] eqn:Hc; simpl; [|lia].
  specialize (Hpos _ _ Hc). simpl in Hpos. lia.
Qed.

Lemma run_positive ops rc :
  positive_counts rc → positive_counts (run ops rc).2.
Proof.
  revert rc; induction ops as [|o ops IH]; intros rc Hpos; [done|].
  rewrite run_cons; simpl. by apply IH, observe_positive.
Qed.

Lemma observe_dom id rc : dom (observe id rc).2 = {[id]} ∪ dom rc.
Proof. unfold observe; simpl. by rewrite dom_insert_L. Qed.

Lemma run_dom ops rc :
  dom (run ops rc).2 = list_to_set (opId <$> ops) ∪ dom rc.
Proof.
  revert rc; induction ops as [|o ops IH]; intros rc.
  - cbn. set_solver.
  - rewrite run_cons. cbn [snd]. rewrite IH, observe_dom. set_solver.
Qed.

End RegistryFacts.

Example registry_three_renders :
  Registry.run [Registry.RenderOp None "r1"; Registry.InlineOp "r2";
                Registry.RenderOp (Some "Component renders") "r1";
                Registry.InlineOp "r1"] Registry.initialRenderCounts
  = ([("r1", 1); ("r2", 1); ("r1", 2); ("r1", 3)],
     {[ "r1" := 3; "r2" := 1 ]}).
Proof. vm_compute. reflexivity. Qed.

(** C1. For a fixed identity, a render-time observe creates the entry at 1
    when the identity is absent, otherwise adds exactly 1 to the stored
    count, stores the new count and returns it; and over any sequence of
    renders (of either counter component, interleaved with renders of
    other identities) that starts with the identity absent, the counts
    shown for it are exactly 1, 2, 3, ..., one per render. *)
Theorem registry_observe_counts_from_one
    (id : string) (rc : gmap string Z) (k : Z) (ops : list Registry.Op) :
  (Registry.observe id (delete id rc)).1 = 1 ∧
  (Registry.observe id (<[id := k]> rc)).1 = k + 1 ∧
  (Registry.observe id rc).2 !! id = Some (Registry.observe id rc).1 ∧
  Registry.countsOf id (Registry.run ops (delete id rc)).1 =
    Z.of_nat <$> seq 1 (length (filter (λ o, Registry.opId o = id) ops)).
Proof.
  repeat split.
  - unfold Registry.observe; simpl. by rewrite lookup_delete_eq.
  - unfold Registry.observe; simpl. by rewrite lookup_insert_eq.
  - apply observe_lookup_eq.
  - rewrite countsOf_run, lookup_delete_eq. unfold Registry.countingFrom.
    apply list_fmap_ext; intros _ n _; simpl. lia.
Qed.

(** C2. Observing one identity leaves the stored count of every other
    identity as it was, whichever of the two counter components renders. *)
Theorem registry_distinct_identities_independent
    (o : Registry.Op) (id' : string) (rc : gmap string Z) :
  Registry.opId o ≠ id' →
  (Registry.observe (Registry.opId o) rc).2 !! id' = rc !! id' ∧
  (Registry.step o rc).2 !! id' = rc !! id'.
Proof.
  intros Hne. destruct (step_observe o rc) as [-> _].
  split; by apply observe_lookup_ne.
Qed.

Lemma registry_distinct_identities_independent_witness :
  "r1" ≠ "r2" ∧
  (Registry.observe "r1" {[ "r2" := 5 ]}).2 !! "r2"
    = ({[ "r2" := 5 ]} : gmap string Z) !! "r2" ∧
  (Registry.step (Registry.InlineOp "r1") {[ "r2" := 5 ]}).2 !! "r2"
    = ({[ "r2" := 5 ]} : gmap string Z) !! "r2".
Proof.
  assert (Hne : "r1" ≠ "r2") by discriminate.
  split; [exact Hne|].
  exact (registry_distinct_identities_independent
           (Registry.InlineOp "r1") "r2" {[ "r2" := 5 ]} Hne).
Defined.

(** C3. No operation on the registry removes an entry: over any sequence
    of renders the set of stored identities only grows, and every identity
    rendered since the (empty) start is still stored, with a positive
    count, after any further renders. *)
Theorem registry_entries_never_removed
    (rc : gmap string Z) (ops ops' : list Registry.Op) :
  dom rc ⊆ dom (Registry.run ops rc).2 ∧
  Forall (λ o, ∃ c, (Registry.run (ops ++ ops') Registry.initialRenderCounts).2
                      !! Registry.opId o = Some c ∧ 0 < c) ops.
Proof.
  split.
  - rewrite run_dom. set_solver.
  - apply Forall_forall. intros o Ho.
    assert (Hin : Registry.opId o ∈
                  dom (Registry.run (ops ++ ops') Registry.initialRenderCounts).2).
    { rewrite run_dom, fmap_app. set_solver. }
    apply elem_of_dom in Hin as [c Hc]. exists c. split; [done|].
    assert (Hpos : Registry.positive_counts
                     (Registry.run (ops ++ ops') Registry.initialRenderCounts).2).
    { apply run_positive. unfold Registry.initialRenderCounts.
      apply map_Forall_empty. }
    exact (Hpos _ _ Hc).
Qed.

(** ** Timer demo *)

Section TimerFacts.
Import TimerDemo.
Implicit Types (s : State) (e : Event) (h : positive).

Lemma mount_consistent first : consistent (mount first).
Proof. unfold consistent, mount; simpl. auto. Qed.

Lemma runEffect_runCleanup_consistent s :
  consistent s → mounted s = true →
  ∀ sec b,
    consistent (runEffect (runCleanup
      {| seconds := sec; isRunning := b; interval := interval s;
         mounted := mounted s; timers := timers s |})).
Proof.
  intros Hc Hm sec b. destruct s as [sec0 run0 [h|] m [act nxt]];
    unfold consistent, runEffect, runCleanup in *; simpl in *; subst m.
  - destruct Hc as (Hact & _ & _). subst act.
    destruct b; simpl; (split; [set_solver|auto]).
  - destruct Hc as (Hact & _). subst act.
    destruct b; simpl; (split; [set_solver|auto]).
Qed.

Lemma commit_consistent sec b s :
  consistent s → mounted s = true → consistent (commit sec b s).
Proof.
  intros Hc Hm. unfold commit.
  destruct (Bool.eqb (isRunning s) b) eqn:Hb.
  - apply Bool.eqb_prop in Hb. subst b.
    destruct s as [sec0 run0 [h|] m act]; unfold consistent in *; simpl in *; done.
  - by apply runEffect_runCleanup_consistent.
Qed.

Lemma step_consistent e s : consistent s → consistent (step e s).
Proof.
  intros Hc. destruct e; simpl.
  - destruct (mounted s) eqn:Hm; [by apply commit_consistent | done].
  - destruct (mounted s) eqn:Hm; [by apply commit_consistent | done].
  - destruct (mounted s) eqn:Hm; [by apply commit_consistent | done].
  - case_decide; [|done].
    destruct s as [sec0 run0 [h'|] m act]; unfold consistent in *; simpl in *; done.
  - destruct (mounted s) eqn:Hm; [|done].
    destruct s as [sec0 run0 [h'|] m [act nxt]];
      unfold consistent, runCleanup in *; simpl in *.
    + destruct Hc as (-> & _). split; [set_solver|auto].
    + destruct Hc as (-> & _). auto.
Qed.

Lemma run_snoc evs e s : run (evs ++ [e]) s = step e (run evs s).
Proof. unfold run. by rewrite foldl_app. Qed.

Lemma run_consistent evs s : consistent s → consistent (run evs s).
Proof.
  intros Hc. induction evs as [|e evs IH] using rev_ind; [done|].
  rewrite run_snoc. by apply step_consistent.
Qed.

(** With no active interval, timers elapsing change nothing. *)
Lemma fires_without_interval hs s :
  active (timers s) = ∅ → run (Fire <$> hs) s = s.
Proof.
  intros Hact. induction hs as [|h hs IH] using rev_ind; [done|].
  rewrite fmap_app. change (Fire <$> [h]) with [Fire h].
  rewrite run_snoc, IH. simpl.
  rewrite Hact. by rewrite decide_False by set_solver.
Qed.

Lemma stopped_no_interval s :
  consistent s → isRunning s = false ∨ mounted s = false →
  active (timers s) = ∅.
Proof.
  unfold consistent. destruct (interval s); [|tauto].
  intros (_ & Hr & Hm) [H|H]; congruence.
Qed.

(** While its interval is active, each tick adds one second. *)
Lemma ticks_add h n s :
  h ∈ active (timers s) →
  run (replicate n (Fire h)) s =
    {| seconds := seconds s + Z.of_nat n; isRunning := isRunning s;
       interval := interval s; mounted := mounted s; timers := timers s |}.
Proof.
  intros Hin. induction n as [|n IH].
  - destruct s; simpl. f_equal. lia.
  - replace (S n) with (n + 1)%nat by lia.
    rewrite replicate_add. change (replicate 1 (Fire h)) with [Fire h].
    rewrite run_snoc, IH. simpl.
    rewrite decide_True by done. f_equal. lia.
Qed.

Lemma twoDigits_padStart k :
  0 ≤ k < 100 → padStart 2 "0" (String_ k) = twoDigits k.
Proof.
  intros Hk.
  assert (Hall : forallb (λ i : nat,
                   bool_decide (padStart 2 "0" (String_ (Z.of_nat i))
                                = twoDigits (Z.of_nat i)))
                 (seq 0 100) = true) by (vm_compute; reflexivity).
  rewrite forallb_forall in Hall.
  assert (Hin : In (Z.to_nat k) (seq 0 100)) by (apply in_seq; lia).
  specialize (Hall _ Hin). rewrite Z2Nat.id in Hall by lia.
  by apply bool_decide_eq_true_1 in Hall.
Qed.

End TimerFacts.

Example timer_three_ticks :
  TimerDemo.shown (TimerDemo.run
    [TimerDemo.ClickToggle; TimerDemo.Fire 1; TimerDemo.Fire 1; TimerDemo.Fire 1;
     TimerDemo.ClickToggle; TimerDemo.Fire 1; TimerDemo.Fire 2]%positive
    (TimerDemo.mount 1)) = "00:03".
Proof. vm_compute. reflexivity. Qed.

Example timer_display_samples :
  TimerDemo.display 75 = "01:15" ∧ TimerDemo.display 600 = "10:00" ∧
  TimerDemo.display 6000 = "100:00".
Proof. vm_compute. auto. Qed.

(** C4. In every state the timer widget can reach, once the running flag
    is off or the widget is torn down no interval is left active, so
    timers elapsing afterwards change nothing. In particular: mount, start,
    [n] ticks of the scheduled interval, stop gives [n] elapsed seconds,
    which any later ticks leave as they are; the span then shows minutes
    and seconds, two digits each below 100 minutes, and "00:03" for three
    ticks. *)
Theorem timer_no_tick_after_stop
    (first : positive) (evs : list TimerDemo.Event) (n : nat)
    (later : list positive) :
  let s := TimerDemo.run evs (TimerDemo.mount first) in
  let scenario (k : nat) :=
    TimerDemo.step TimerDemo.ClickToggle
      (TimerDemo.run (replicate k (TimerDemo.Fire first))
         (TimerDemo.step TimerDemo.ClickToggle (TimerDemo.mount first))) in
  (TimerDemo.isRunning s = false ∨ TimerDemo.mounted s = false →
   TimerDemo.run (TimerDemo.Fire <$> later) s = s) ∧
  TimerDemo.run (TimerDemo.Fire <$> later) (TimerDemo.step TimerDemo.Unmount s)
    = TimerDemo.step TimerDemo.Unmount s ∧
  TimerDemo.seconds (scenario n) = Z.of_nat n ∧
  TimerDemo.isRunning (scenario n) = false ∧
  TimerDemo.run (TimerDemo.Fire <$> later) (scenario n) = scenario n ∧
  TimerDemo.shown (TimerDemo.run (TimerDemo.Fire <$> later) (scenario n))
    = TimerDemo.display (Z.of_nat n) ∧
  (Z.of_nat n < 6000 →
   TimerDemo.display (Z.of_nat n)
     = TimerDemo.twoDigits (Z.of_nat n `div` 60) +:+ ":" +:+
       TimerDemo.twoDigits (Z.of_nat n `mod` 60)) ∧
  TimerDemo.shown (TimerDemo.run (TimerDemo.Fire <$> later) (scenario 3%nat))
    = "00:03".
Proof.
  intros s scenario.
  assert (Hs : TimerDemo.consistent s)
    by apply run_consistent, mount_consistent.
  assert (Hscenario : ∀ k,
    TimerDemo.seconds (scenario k) = Z.of_nat k ∧
    TimerDemo.isRunning (scenario k) = false ∧
    TimerDemo.run (TimerDemo.Fire <$> later) (scenario k) = scenario k).
  { intros k. subst scenario. cbv beta.
    set (started := TimerDemo.step TimerDemo.ClickToggle (TimerDemo.mount first)).
    assert (Hin : first ∈ TimerDemo.active (TimerDemo.timers started))
      by (subst started; simpl; set_solver).
    rewrite (ticks_add first k started Hin).
    assert (Hst : TimerDemo.consistent started)
      by apply step_consistent, mount_consistent.
    set (ticked := TimerDemo.Build_State _ _ _ _ _).
    assert (Htk : TimerDemo.consistent ticked) by exact Hst.
    pose proof (step_consistent TimerDemo.ClickToggle ticked Htk) as Hstop.
    assert (Hoff : TimerDemo.isRunning
                     (TimerDemo.step TimerDemo.ClickToggle ticked) = false)
      by reflexivity.
    split; [subst ticked started; simpl; lia|]. split; [done|].
    apply fires_without_interval, stopped_no_interval; auto. }
  destruct (Hscenario n) as (Hsec & Hoff & Hstable).
  repeat split.
  - intros Hstop. by apply fires_without_interval, stopped_no_interval.
  - apply fires_without_interval, stopped_no_interval.
    + by apply step_consistent.
    + right. simpl. by destruct (TimerDemo.mounted s) eqn:Hm.
  - done.
  - done.
  - done.
  - rewrite Hstable. unfold TimerDemo.shown. by rewrite Hsec.
  - intros Hn. unfold TimerDemo.display.
    rewrite Z.rem_mod_nonneg by lia.
    rewrite !twoDigits_padStart; [done| |].
    + pose proof (Z.mod_pos_bound (Z.of_nat n) 60). lia.
    + split; [apply Z.div_pos; lia | apply Z.div_lt_upper_bound; lia].
  - destruct (Hscenario 3%nat) as (Hsec3 & _ & Hstable3).
    rewrite Hstable3. unfold TimerDemo.shown. by rewrite Hsec3.
Qed.

Lemma timer_no_tick_after_stop_witness :
  let s := TimerDemo.run [TimerDemo.ClickToggle; TimerDemo.Fire 1%positive;
                          TimerDemo.ClickReset]
                         (TimerDemo.mount 1%positive) in
  TimerDemo.isRunning s = false ∧
  TimerDemo.run (TimerDemo.Fire <$> [1; 2]%positive) s = s ∧
  TimerDemo.display 3
    = TimerDemo.twoDigits (3 `div` 60) +:+ ":" +:+ TimerDemo.twoDigits (3 `mod` 60).
Proof.
  intros s.
  assert (Hoff : TimerDemo.isRunning s = false) by reflexivity.
  assert (Hlt : Z.of_nat 3 < 6000) by (simpl; lia).
  pose proof (timer_no_tick_after_stop 1%positive
                [TimerDemo.ClickToggle; TimerDemo.Fire 1%positive;
                 TimerDemo.ClickReset] 3%nat [1; 2]%positive) as H.
  cbv zeta in H. destruct H as (Hstop & _ & _ & _ & _ & _ & Hfmt & _).
  split; [exact Hoff|]. split; [exact (Hstop (or_introl Hoff))|].
  exact (Hfmt Hlt).
Defined.

(** ** Theme *)

Section ThemeFacts.
Import ThemeContext.
Implicit Types (s : State) (t : Theme) (o : Op) (w : Window).

Lemma toggled_involutive t : toggled (toggled t) = t.
Proof. by destruct t. Qed.

Lemma toggled_ne t : toggled t ≠ t.
Proof. by destruct t. Qed.

Lemma applyTheme_persisted s : persisted (applyTheme s).
Proof. unfold persisted, applyTheme; simpl. apply lookup_insert_eq. Qed.

Lemma applyTheme_theme s : theme (applyTheme s) = theme s.
Proof. done. Qed.

Lemma setThemeState_theme next s : theme (setThemeState next s) = next.
Proof. unfold setThemeState. by case_decide. Qed.

Lemma setThemeState_persisted next s :
  persisted s → persisted (setThemeState next s).
Proof.
  intros Hs. unfold setThemeState. case_decide; [done|].
  apply applyTheme_persisted.
Qed.

(** After the mount effect the key is never missing or empty, so the
    media-query listener leaves the theme alone. *)
Lemma handleChange_persisted m s :
  persisted s →
  persisted (handleChange m s) ∧ theme (handleChange m s) = theme s.
Proof.
  unfold persisted, handleChange. intros Hs. rewrite Hs.
  destruct (theme s) eqn:Ht; simpl; by rewrite ?Hs, ?Ht.
Qed.

Lemma step_persisted o s :
  persisted s →
  persisted (step o s) ∧ theme (step o s) = lastSet (theme s) [o].
Proof.
  intros Hs. destruct o as [|t|m]; simpl.
  - split; [by apply setThemeState_persisted | apply setThemeState_theme].
  - split; [by apply setThemeState_persisted | apply setThemeState_theme].
  - by apply handleChange_persisted.
Qed.

Lemma lastSet_cons t o ops :
  lastSet t (o :: ops) = lastSet (lastSet t [o]) ops.
Proof. by destruct o. Qed.

Lemma run_persisted ops s :
  persisted s →
  persisted (run ops s) ∧ theme (run ops s) = lastSet (theme s) ops.
Proof.
  revert s. induction ops as [|o ops IH]; intros s Hs; [done|].
  destruct (step_persisted o s Hs) as [Hp Ht].
  destruct (IH _ Hp) as [Hp' Ht'].
  change (run (o :: ops) s) with (run ops (step o s)).
  by rewrite lastSet_cons, <- Ht.
Qed.

End ThemeFacts.

Example theme_session :
  let w := {| ThemeContext.localStorage := ∅; ThemeContext.classList := ∅;
              ThemeContext.prefersDark := true |} in
  let s := ThemeContext.run
             [ThemeContext.ToggleTheme; ThemeContext.SetTheme ThemeContext.light;
              ThemeContext.SystemChange false; ThemeContext.ToggleTheme]
             (ThemeContext.mount w) in
  ThemeContext.theme (ThemeContext.mount w) = ThemeContext.dark ∧
  ThemeContext.theme s = ThemeContext.dark ∧
  ThemeContext.localStorage (ThemeContext.window s)
    !! ThemeContext.THEME_STORAGE_KEY = Some "dark".
Proof. vm_compute. auto. Qed.

(** C5. Toggling is an involution on the theme: two toggles give back the
    value, on the bare updater and on the provider's state in any state it
    reaches; and after mounting and any sequence of toggleTheme, setTheme
    and system-preference events, the theme state is the value last set
    and the storage key holds exactly that value. *)
Theorem theme_toggle_involution_and_persisted
    (t : ThemeContext.Theme) (w : ThemeContext.Window)
    (ops : list ThemeContext.Op) :
  let s := ThemeContext.run ops (ThemeContext.mount w) in
  let requested :=
    ThemeContext.lastSet (ThemeContext.getInitialTheme (Some w)) ops in
  ThemeContext.toggled (ThemeContext.toggled t) = t ∧
  ThemeContext.theme (ThemeContext.toggleTheme (ThemeContext.toggleTheme s))
    = ThemeContext.theme s ∧
  ThemeContext.theme s = requested ∧
  ThemeContext.localStorage (ThemeContext.window s)
    !! ThemeContext.THEME_STORAGE_KEY
    = Some (ThemeContext.themeString requested).
Proof.
  intros s requested.
  destruct (run_persisted ops (ThemeContext.mount w)
              (applyTheme_persisted _)) as [Hp Ht].
  change (ThemeContext.theme s = requested) in Ht.
  change (ThemeContext.persisted s) in Hp.
  repeat split.
  - apply toggled_involutive.
  - unfold ThemeContext.toggleTheme. rewrite !setThemeState_theme.
    apply toggled_involutive.
  - exact Ht.
  - rewrite <- Ht. exact Hp.
Qed.

(** C6. The theme accessor throws exactly when no ThemeProvider encloses
    the caller, which is when the context value is undefined; inside a
    provider it returns the value of the nearest one and does not throw.
    It never falls back to a default value. The user accessor of the
    context demo behaves the same over its null default. *)
Theorem useTheme_throws_outside_provider
    (ps : list ThemeContext.State)
    (raw : list (option ThemeContext.ThemeContextValue))
    (users : list (option ThemeContext.UserContextValue)) :
  ThemeContext.useTheme (ThemeContext.insideProviders ps) =
    match ps with
    | [] => ThemeContext.Throws "useTheme must be used within a ThemeProvider"
    | s :: _ => ThemeContext.Returns (ThemeContext.providerValue s)
    end ∧
  ThemeContext.useTheme raw =
    match ThemeContext.useContext ThemeContext.ThemeContextDefault raw with
    | None => ThemeContext.Throws "useTheme must be used within a ThemeProvider"
    | Some v => ThemeContext.Returns v
    end ∧
  ThemeContext.useExampleUser users =
    match ThemeContext.useContext None users with
    | None =>
        ThemeContext.Throws "useExampleUser must be used within ExampleUserProvider"
    | Some v => ThemeContext.Returns v
    end.
Proof. by destruct ps. Qed.

(** C7. Theme initialisation in a browser reads the application's storage
    key: a stored 'light' or 'dark' is the initial theme, and with the key
    absent the initial theme is the system preference, 'dark' when the
    system prefers dark and 'light' otherwise. *)
Theorem getInitialTheme_storage_then_system
    (w : ThemeContext.Window) (t : ThemeContext.Theme) :
  (ThemeContext.localStorage w !! ThemeContext.THEME_STORAGE_KEY
     = Some (ThemeContext.themeString t) →
   ThemeContext.getInitialTheme (Some w) = t) ∧
  (ThemeContext.localStorage w !! ThemeContext.THEME_STORAGE_KEY = None →
   ThemeContext.getInitialTheme (Some w)
     = if ThemeContext.prefersDark w then ThemeContext.dark
       else ThemeContext.light).
Proof.
  unfold ThemeContext.getInitialTheme. split; intros ->; [|done].
  by destruct t.
Qed.

Lemma getInitialTheme_storage_then_system_witness :
  ThemeContext.getInitialTheme
    (Some {| ThemeContext.localStorage :=
               {[ ThemeContext.THEME_STORAGE_KEY := "dark" ]};
             ThemeContext.classList := ∅;
             ThemeContext.prefersDark := false |}) = ThemeContext.dark ∧
  ThemeContext.getInitialTheme
    (Some {| ThemeContext.localStorage := ∅; ThemeContext.classList := ∅;
             ThemeContext.prefersDark := true |}) = ThemeContext.dark.
Proof.
  split.
  - apply (proj1 (getInitialTheme_storage_then_system
                    {| ThemeContext.localStorage :=
                         {[ ThemeContext.THEME_STORAGE_KEY := "dark" ]};
                       ThemeContext.classList := ∅;
                       ThemeContext.prefersDark := false |}
                    ThemeContext.dark)).
    vm_compute. reflexivity.
  - apply (proj2 (getInitialTheme_storage_then_system
                    {| ThemeContext.localStorage := ∅;
                       ThemeContext.classList := ∅;
                       ThemeContext.prefersDark := true |}
                    ThemeContext.dark)).
    vm_compute. reflexivity.
Defined.

(** ** Routes *)

Ltac use_matches :=
  repeat match goal with
         | Hm : _ = true |- _ => rewrite Hm; clear Hm
         | Hm : _ = false |- _ => rewrite Hm; clear Hm
         end.

Section RouterFacts.
Import Router.
Variable matchPath : string → string → bool.
Implicit Types (r : Route) (pathname : string).

Lemma declared_eq :
  declared =
    [ {| index := true; path := None; element := HomePage |};
      {| index := false; path := Some "hooks/use-state"; element := UseStatePlayground |};
      {| index := false; path := Some "hooks/use-effect"; element := UseEffectPlayground |};
      {| index := false; path := Some "hooks/use-reducer"; element := UseReducerPlayground |};
      {| index := false; path := Some "hooks/use-ref"; element := UseRefPlayground |};
      {| index := false; path := Some "hooks/use-memo"; element := UseMemoPlayground |};
      {| index := false; path := Some "hooks/use-callback"; element := UseCallbackPlayground |};
      {| index := false; path := Some "hooks/use-context"; element := UseContextPlayground |} ].
Proof. reflexivity. Qed.

(** The order in which the table is tried: the seven hook pages, the
    index route, the catch-all. *)
Lemma ranked_children :
  ranked children = tail declared ++ [ {| index := true; path := None; element := HomePage |};
                                       {| index := false; path := Some "*";
                                          element := Navigate "/" true |} ].
Proof. reflexivity. Qed.

Lemma resolve_unmatched pathname :
  Forall (λ r, matchPath (fullPath r) pathname = false) declared →
  resolve matchPath pathname = Some (Navigate "/" true).
Proof.
  rewrite declared_eq. intros H.
  repeat (apply Forall_cons in H as [? H]).
  unfold resolve. rewrite ranked_children, declared_eq.
  unfold matches; simpl in *. by use_matches.
Qed.

Lemma resolve_unique_match r pathname :
  r ∈ declared →
  matchPath (fullPath r) pathname = true →
  Forall (λ r', r' ≠ r → matchPath (fullPath r') pathname = false) declared →
  resolve matchPath pathname = Some (element r).
Proof.
  rewrite declared_eq. intros Hr Hm Hothers.
  repeat (apply Forall_cons in Hothers as [? Hothers]).
  unfold resolve. rewrite ranked_children, declared_eq. unfold matches.
  repeat (apply elem_of_cons in Hr as [-> | Hr]);
    [ .. | by apply elem_of_nil in Hr ];
    repeat match goal with
           | H : ?a ≠ ?b → _ |- _ =>
               first [ specialize (H ltac:(discriminate)) | clear H ]
           end;
    simpl in *; by use_matches.
Qed.

Lemma landing_unmatched pathname :
  Forall (λ r, matchPath (fullPath r) pathname = false) declared →
  matchPath rootPath rootPath = true →
  Forall (λ p, matchPath p rootPath = false) hooksListPaths →
  landing matchPath pathname = Some HomePage.
Proof.
  intros Hun Hroot Hhooks. unfold landing.
  rewrite (resolve_unmatched _ Hun).
  apply (resolve_unique_match {| index := true; path := None; element := HomePage |}).
  - rewrite declared_eq. apply elem_of_cons. by left.
  - exact Hroot.
  - rewrite declared_eq. unfold hooksListPaths in Hhooks.
    repeat (apply Forall_cons in Hhooks as [? Hhooks]).
    repeat (apply Forall_cons; split; [by intros _|]); try done.
    apply Forall_cons; split; [done|].
    repeat (apply Forall_cons; split; [by intros _|]). done.
Qed.

End RouterFacts.

Example router_exact_samples :
  Router.resolve Router.matchExact "/" = Some Router.HomePage ∧
  Router.resolve Router.matchExact "/hooks/use-memo" = Some Router.UseMemoPlayground ∧
  Router.resolve Router.matchExact "/hooks/use-nothing"
    = Some (Router.Navigate "/" true) ∧
  Router.landing Router.matchExact "/hooks/use-nothing" = Some Router.HomePage.
Proof. vm_compute. auto. Qed.

(** C8. The route table is static: the home path and the seven hook paths
    (the ones the sidebar links to), each with its page, followed by one
    catch-all. A location that matches exactly one declared path mounts
    that path's page; a location that matches none of them resolves to
    the catch-all, a redirect to the home path, and so lands on the home
    page. The library's path matcher is a parameter. *)
Theorem router_static_table_and_catch_all
    (matchPath : string → string → bool) (pathname : string)
    (r : Router.Route) :
  Router.children =
    Router.declared ++
    [ {| Router.index := false; Router.path := Some "*";
         Router.element := Router.Navigate Router.rootPath true |} ] ∧
  (λ r, (Router.fullPath r, Router.element r)) <$> Router.declared =
    (Router.rootPath, Router.HomePage) ::
    zip Router.hooksListPaths
        [ Router.UseStatePlayground; Router.UseEffectPlayground;
          Router.UseReducerPlayground; Router.UseRefPlayground;
          Router.UseMemoPlayground; Router.UseCallbackPlayground;
          Router.UseContextPlayground ] ∧
  (r ∈ Router.declared →
   matchPath (Router.fullPath r) pathname = true →
   Forall (λ r', r' ≠ r → matchPath (Router.fullPath r') pathname = false)
          Router.declared →
   Router.resolve matchPath pathname = Some (Router.element r)) ∧
  (Forall (λ r', matchPath (Router.fullPath r') pathname = false)
          Router.declared →
   Router.resolve matchPath pathname
     = Some (Router.Navigate Router.rootPath true) ∧
   (matchPath Router.rootPath Router.rootPath = true →
    Forall (λ p, matchPath p Router.rootPath = false) Router.hooksListPaths →
    Router.landing matchPath pathname = Some Router.HomePage)).
Proof.
  split; [reflexivity|]. split; [reflexivity|]. split.
  - apply resolve_unique_match.
  - intros Hun. split.
    + by apply resolve_unmatched.
    + by apply landing_unmatched.
Qed.

Lemma router_static_table_and_catch_all_witness :
  Router.resolve Router.matchExact "/hooks/use-ref" = Some Router.UseRefPlayground ∧
  Router.resolve Router.matchExact "/settings"
    = Some (Router.Navigate Router.rootPath true) ∧
  Router.landing Router.matchExact "/settings" = Some Router.HomePage.
Proof.
  pose (useRef := {| Router.index := false; Router.path := Some "hooks/use-ref";
                     Router.element := Router.UseRefPlayground |}).
  destruct (router_static_table_and_catch_all Router.matchExact
              "/hooks/use-ref" useRef) as (_ & _ & Hone & _).
  destruct (router_static_table_and_catch_all Router.matchExact
              "/settings" useRef) as (_ & _ & _ & Hnone).
  assert (Hin : useRef ∈ Router.declared).
  { rewrite declared_eq. do 4 apply list_elem_of_further. apply list_elem_of_here. }
  assert (Hothers :
    Forall (λ r', r' ≠ useRef →
                  Router.matchExact (Router.fullPath r') "/hooks/use-ref" = false)
           Router.declared).
  { rewrite declared_eq.
    repeat (apply Forall_cons; split;
            [first [ by intros _; vm_compute
                   | by intros Hne; destruct (Hne eq_refl) ] |]).
    by constructor. }
  assert (Hun :
    Forall (λ r', Router.matchExact (Router.fullPath r') "/settings" = false)
           Router.declared).
  { rewrite declared_eq.
    repeat (apply Forall_cons; split; [by vm_compute|]). by constructor. }
  assert (Hhooks :
    Forall (λ p, Router.matchExact p Router.rootPath = false)
           Router.hooksListPaths).
  { unfold Router.hooksListPaths.
    repeat (apply Forall_cons; split; [by vm_compute|]). by constructor. }
  destruct (Hnone Hun) as [Hredirect Hland].
  split; [exact (Hone Hin eq_refl Hothers)|].
  split; [exact Hredirect|].
  exact (Hland eq_refl Hhooks).
Defined.

(** ** Reducers *)

Section ReducerFacts.
Import Reducers.
Implicit Types (state : CounterState) (action : CounterAction).

Lemma tracks_append state v n :
  length (history state) = n →
  tracks {| count := v; history := history state ++ [v] |} (S n).
Proof.
  intros Hn. unfold tracks; simpl.
  rewrite length_app, last_snoc; simpl. split; [lia|done].
Qed.

Lemma counterReducer_tracks state action n :
  tracks state n →
  tracks (counterReducer state action)
         (updatesSinceReset n [action]).
Proof.
  intros [Hn Hlast]. unfold counterReducer. cbn [updatesSinceReset].
  unfold isUpdate.
  repeat case_bool_decide; repeat case_decide; try congruence; simpl;
    solve [ by apply tracks_append | by split ].
Qed.

Lemma updatesSinceReset_cons n action actions :
  updatesSinceReset n (action :: actions) =
    updatesSinceReset (updatesSinceReset n [action]) actions.
Proof. simpl. by repeat case_match. Qed.

Lemma foldl_counterReducer_tracks actions state n :
  tracks state n →
  tracks (foldl counterReducer state actions) (updatesSinceReset n actions).
Proof.
  revert state n. induction actions as [|a actions IH]; intros state n Hs; [done|].
  rewrite updatesSinceReset_cons. simpl foldl.
  by apply IH, counterReducer_tracks.
Qed.

Lemma ids_filter_sublist (P : Todo → Prop) `{!∀ todo, Decision (P todo)}
    (st : TodoState) :
  id <$> filter P (todos st) `sublist_of` ids st.
Proof. apply fmap_sublist, sublist_filter. Qed.

Lemma ids_toggle (st : TodoState) (i : Z) :
  ids (todoReducer st (TOGGLE i)) = ids st.
Proof.
  unfold ids; simpl. rewrite <- list_fmap_compose.
  apply list_fmap_ext. intros _ todo _; simpl. by case_decide.
Qed.

Lemma sublist_fresh (l : list Z) (st : TodoState) :
  l `sublist_of` ids st → freshIds st →
  NoDup l ∧ Forall (λ i, i < nextId st) l.
Proof.
  intros Hsub [Hnd Hlt]. split; [by eapply sublist_NoDup|].
  rewrite Forall_forall in Hlt. apply Forall_forall. intros x Hx.
  eapply Hlt, elem_of_sublist; eauto.
Qed.

Lemma todoReducer_freshIds (st : TodoState) (a : TodoAction) :
  freshIds st → freshIds (todoReducer st a).
Proof.
  intros Hst. destruct a as [txt|i|i| |ty].
  - destruct Hst as [Hnd Hlt]. unfold freshIds, ids in *; simpl.
    rewrite fmap_app; simpl. split.
    + apply NoDup_app. split; [done|]. split; [|apply NoDup_singleton].
      intros x Hx ->%list_elem_of_singleton.
      rewrite Forall_forall in Hlt. specialize (Hlt _ Hx). lia.
    + apply Forall_app. split.
      * eapply Forall_impl; [exact Hlt|]. intros; simpl in *; lia.
      * apply Forall_singleton. lia.
  - unfold freshIds. by rewrite ids_toggle.
  - apply (sublist_fresh _ st); [apply ids_filter_sublist | done].
  - apply (sublist_fresh _ st); [apply ids_filter_sublist | done].
  - done.
Qed.

Lemma foldl_todoReducer_freshIds (actions : list TodoAction) (st : TodoState) :
  freshIds st → freshIds (foldl todoReducer st actions).
Proof.
  revert st. induction actions as [|a actions IH]; intros st Hst; [done|].
  by apply IH, todoReducer_freshIds.
Qed.

End ReducerFacts.

Example counter_session :
  Reducers.counterRun
    [ {| Reducers.type := "INCREMENT"; Reducers.payload := None |};
      {| Reducers.type := "SET"; Reducers.payload := Some 10 |};
      {| Reducers.type := "NOOP"; Reducers.payload := Some 7 |};
      {| Reducers.type := "DECREMENT"; Reducers.payload := None |};
      {| Reducers.type := "SET"; Reducers.payload := None |} ]
  = {| Reducers.count := 0; Reducers.history := [1; 10; 9; 0] |}.
Proof. vm_compute. reflexivity. Qed.

Example todo_session :
  Reducers.todoRun
    [ Reducers.ADD "a"; Reducers.ADD "b"; Reducers.TOGGLE 1; Reducers.ADD "c";
      Reducers.CLEAR_COMPLETED; Reducers.DELETE 3; Reducers.ADD "d" ]
  = {| Reducers.todos :=
         [ {| Reducers.id := 2; Reducers.text := "b"; Reducers.completed := false |};
           {| Reducers.id := 4; Reducers.text := "d"; Reducers.completed := false |} ];
       Reducers.nextId := 5 |}.
Proof. vm_compute. reflexivity. Qed.

(** C9. Starting from the initial state, after any sequence of actions the
    history holds one entry per update dispatched since the last RESET (so
    it is empty exactly when there was none, and then the count is 0), and
    a non-empty history ends with the current count. INCREMENT, DECREMENT
    and SET each append the new count, RESET gives back the initial state,
    SET without payload sets the count to 0, and an action of any other
    type leaves the state as it is. *)
Theorem counterReducer_history_ends_with_count
    (actions : list Reducers.CounterAction) (state : Reducers.CounterState)
    (action : Reducers.CounterAction) (p : option Z) (v : Z) :
  let s := Reducers.counterRun actions in
  length (Reducers.history s) = Reducers.updatesSinceReset 0 actions ∧
  (Reducers.history s = [] ↔ Reducers.updatesSinceReset 0 actions = 0%nat) ∧
  match last (Reducers.history s) with
  | Some latest => latest = Reducers.count s
  | None => Reducers.count s = 0
  end ∧
  Reducers.counterReducer state
      {| Reducers.type := "INCREMENT"; Reducers.payload := p |}
    = {| Reducers.count := Reducers.count state + 1;
         Reducers.history := Reducers.history state ++ [Reducers.count state + 1] |} ∧
  Reducers.counterReducer state
      {| Reducers.type := "DECREMENT"; Reducers.payload := p |}
    = {| Reducers.count := Reducers.count state - 1;
         Reducers.history := Reducers.history state ++ [Reducers.count state - 1] |} ∧
  Reducers.counterReducer state
      {| Reducers.type := "SET"; Reducers.payload := Some v |}
    = {| Reducers.count := v;
         Reducers.history := Reducers.history state ++ [v] |} ∧
  Reducers.counterReducer state
      {| Reducers.type := "SET"; Reducers.payload := None |}
    = {| Reducers.count := 0;
         Reducers.history := Reducers.history state ++ [0] |} ∧
  Reducers.counterReducer state
      {| Reducers.type := "RESET"; Reducers.payload := p |}
    = Reducers.initialState ∧
  (Reducers.type action ∉ ["INCREMENT"; "DECREMENT"; "RESET"; "SET"] →
   Reducers.counterReducer state action = state).
Proof.
  intros s.
  destruct (foldl_counterReducer_tracks actions Reducers.initialState 0)
    as [Hlen Hlast]; [by split|].
  change (foldl _ _ _) with s in Hlen, Hlast.
  split; [exact Hlen|]. split.
  { rewrite <- Hlen. split; [by intros ->|]. by destruct (Reducers.history s). }
  split; [exact Hlast|].
  repeat (split; [reflexivity|]).
  intros Hother. unfold Reducers.counterReducer.
  repeat case_decide; try done; exfalso; apply Hother; set_solver.
Qed.

Lemma counterReducer_history_ends_with_count_witness :
  Reducers.counterReducer
    {| Reducers.count := 4; Reducers.history := [3; 4] |}
    {| Reducers.type := "MULTIPLY"; Reducers.payload := Some 2 |}
  = {| Reducers.count := 4; Reducers.history := [3; 4] |}.
Proof.
  refine (proj2 (proj2 (proj2 (proj2 (proj2 (proj2 (proj2 (proj2
    (counterReducer_history_ends_with_count []
       {| Reducers.count := 4; Reducers.history := [3; 4] |}
       {| Reducers.type := "MULTIPLY"; Reducers.payload := Some 2 |}
       None 0)))))))) _).
  simpl. intros Hin.
  repeat (apply elem_of_cons in Hin as [Hin|Hin]; [discriminate Hin|]).
  by apply elem_of_nil in Hin.
Defined.

Lemma ids_delete (st : Reducers.TodoState) (i : Z) :
  Reducers.ids (Reducers.todoReducer st (Reducers.DELETE i))
    = filter (λ j, j ≠ i) (Reducers.ids st).
Proof.
  unfold Reducers.ids; simpl.
  induction (Reducers.todos st) as [|todo l IH]; [done|].
  rewrite fmap_cons, !filter_cons.
  destruct (decide (Reducers.id todo ≠ i)); rewrite ?fmap_cons; by f_equal.
Qed.

(** C10. Starting from no todos and nextId 1, after any sequence of
    actions the todo ids are pairwise distinct and all strictly below
    nextId. ADD gives the new todo the current nextId and adds 1 to
    nextId; TOGGLE, DELETE and CLEAR_COMPLETED leave nextId alone and
    change no id: TOGGLE keeps the list of ids, DELETE drops the given id,
    CLEAR_COMPLETED keeps a sublist. *)
Theorem todoReducer_ids_distinct_below_nextId
    (actions : list Reducers.TodoAction) (state : Reducers.TodoState)
    (txt : string) (i : Z) :
  let s := Reducers.todoRun actions in
  NoDup (Reducers.ids s) ∧
  Forall (λ j, j < Reducers.nextId s) (Reducers.ids s) ∧
  Reducers.todoReducer state (Reducers.ADD txt)
    = {| Reducers.todos :=
           Reducers.todos state ++
           [ {| Reducers.id := Reducers.nextId state; Reducers.text := txt;
                Reducers.completed := false |} ];
         Reducers.nextId := Reducers.nextId state + 1 |} ∧
  Reducers.ids (Reducers.todoReducer state (Reducers.TOGGLE i))
    = Reducers.ids state ∧
  Reducers.ids (Reducers.todoReducer state (Reducers.DELETE i))
    = filter (λ j, j ≠ i) (Reducers.ids state) ∧
  Reducers.ids (Reducers.todoReducer state Reducers.CLEAR_COMPLETED)
    `sublist_of` Reducers.ids state ∧
  Reducers.nextId (Reducers.todoReducer state (Reducers.TOGGLE i))
    = Reducers.nextId state ∧
  Reducers.nextId (Reducers.todoReducer state (Reducers.DELETE i))
    = Reducers.nextId state ∧
  Reducers.nextId (Reducers.todoReducer state Reducers.CLEAR_COMPLETED)
    = Reducers.nextId state.
Proof.
  intros s.
  assert (Hs : Reducers.freshIds s).
  { apply foldl_todoReducer_freshIds. split; [constructor|]. by constructor. }
  destruct Hs as [Hnd Hlt].
  split; [exact Hnd|]. split; [exact Hlt|]. split; [reflexivity|].
  split; [apply ids_toggle|]. split; [apply ids_delete|].
  split; [apply ids_filter_sublist|]. done.
Qed.

(** * Further properties *)

(** ** Render registry: what is stored *)

Section RegistryRunFacts.
Import Registry RegistryRuns.
Implicit Types (id : string) (rc : gmap string Z) (ops : list Op).

Lemma run_lookup ops rc id :
  (run ops rc).2 !! id =
    match rendersOf id ops with
    | O => rc !! id
    | S _ => Some (nullish (rc !! id) 0 + Z.of_nat (rendersOf id ops))
    end.
Proof.
  revert rc. induction ops as [|o ops IH]; intros rc; [done|].
  rewrite run_cons. cbn [snd]. rewrite IH. unfold rendersOf.
  rewrite (filter_cons _ o).
  destruct (decide (opId o = id)) as [->|Hne].
  - rewrite observe_lookup_eq. cbn [length nullish].
    destruct (length _); [f_equal; lia|]. f_equal. lia.
  - by rewrite observe_lookup_ne.
Qed.

Lemma rendersOf_Permutation id ops ops' :
  ops ≡ₚ ops' → rendersOf id ops = rendersOf id ops'.
Proof. intros Hp. unfold rendersOf. by rewrite Hp. Qed.

End RegistryRunFacts.

Example registry_stored_example :
  (Registry.run [Registry.InlineOp "a"; Registry.RenderOp None "b";
                 Registry.InlineOp "a"] Registry.initialRenderCounts).2
  = {[ "a" := 2; "b" := 1 ]}.
Proof. vm_compute. reflexivity. Qed.

(** X1. After any sequence of renders from the empty registry, the count
    stored for an identity is the number of renders of that identity, and
    an identity that never rendered has no entry. *)
Theorem registry_stored_count_is_render_count
    (ops : list Registry.Op) (id : string) :
  (Registry.run ops Registry.initialRenderCounts).2 !! id =
    match RegistryRuns.rendersOf id ops with
    | O => None
    | S n => Some (Z.of_nat (S n))
    end.
Proof.
  rewrite run_lookup. unfold Registry.initialRenderCounts.
  rewrite lookup_empty. destruct (RegistryRuns.rendersOf id ops); [done|].
  simpl. f_equal.
Qed.

(** X2. The registry a sequence of renders leaves behind does not depend
    on the order of the renders: renders of different identities commute. *)
Theorem registry_order_independent
    (ops ops' : list Registry.Op) (rc : gmap string Z) :
  ops ≡ₚ ops' → (Registry.run ops rc).2 = (Registry.run ops' rc).2.
Proof.
  intros Hp. apply map_eq. intros id.
  by rewrite !run_lookup, (rendersOf_Permutation id ops ops' Hp).
Qed.

Lemma registry_order_independent_witness :
  [Registry.InlineOp "a"; Registry.RenderOp None "b"]
    ≡ₚ [Registry.RenderOp None "b"; Registry.InlineOp "a"] ∧
  (Registry.run [Registry.InlineOp "a"; Registry.RenderOp None "b"] ∅).2
    = (Registry.run [Registry.RenderOp None "b"; Registry.InlineOp "a"] ∅).2.
Proof.
  assert (Hp : [Registry.InlineOp "a"; Registry.RenderOp None "b"]
                 ≡ₚ [Registry.RenderOp None "b"; Registry.InlineOp "a"])
    by apply perm_swap.
  split; [exact Hp|].
  exact (registry_order_independent _ _ ∅ Hp).
Defined.

(** ** Timer demo: intervals, reset, pause and resume *)

Section TimerMoreFacts.
Import TimerDemo.
Implicit Types (s : State) (e : Event) (h : positive).

Lemma commit_fields sec b s :
  seconds (commit sec b s) = sec ∧ isRunning (commit sec b s) = b ∧
  mounted (commit sec b s) = mounted s.
Proof.
  unfold commit, runEffect, runCleanup.
  destruct (Bool.eqb (isRunning s) b); [done|].
  destruct b, (interval s); done.
Qed.

Lemma step_seconds_nonneg e s : 0 ≤ seconds s → 0 ≤ seconds (step e s).
Proof.
  intros Hs. destruct e; simpl.
  - destruct (mounted s); [|done]. by rewrite (proj1 (commit_fields _ _ _)).
  - destruct (mounted s); [|done]. by rewrite (proj1 (commit_fields _ _ _)).
  - destruct (mounted s); [|done]. by rewrite (proj1 (commit_fields _ _ _)).
  - case_decide; simpl; lia.
  - destruct (mounted s); [|done]. unfold runCleanup.
    by destruct (interval s).
Qed.

Lemma run_seconds_nonneg evs s : 0 ≤ seconds s → 0 ≤ seconds (run evs s).
Proof.
  intros Hs. induction evs as [|e evs IH] using rev_ind; [done|].
  rewrite run_snoc. by apply step_seconds_nonneg.
Qed.

(** Handles in use are below the next handle, which never goes down. *)
Lemma step_handles_fresh e s :
  (∀ h, h ∈ active (timers s) → (h < nextHandle (timers s))%positive) →
  (∀ h, h ∈ active (timers (step e s)) →
        (h < nextHandle (timers (step e s)))%positive) ∧
  (nextHandle (timers s) ≤ nextHandle (timers (step e s)))%positive.
Proof.
  intros Hf.
  assert (Hcommit : ∀ sec b,
    (∀ h, h ∈ active (timers (commit sec b s)) →
          (h < nextHandle (timers (commit sec b s)))%positive) ∧
    (nextHandle (timers s) ≤ nextHandle (timers (commit sec b s)))%positive).
  { intros sec b. unfold commit, runEffect, runCleanup.
    destruct (Bool.eqb (isRunning s) b); simpl; [split; [done|lia]|].
    destruct b, (interval s) as [h0|]; simpl; split; try lia;
      intros h Hh; try (apply Hf; set_solver).
    - apply elem_of_union in Hh as [->%elem_of_singleton|Hh]; [lia|].
      apply elem_of_difference in Hh as [Hh _]. specialize (Hf _ Hh). lia.
    - apply elem_of_union in Hh as [->%elem_of_singleton|Hh]; [lia|].
      specialize (Hf _ Hh). lia. }
  destruct e; simpl; try (destruct (mounted s); [apply Hcommit|split; [done|lia]]).
  - case_decide; simpl; (split; [done|lia]).
  - destruct (mounted s); [|split; [done|lia]]. unfold runCleanup.
    destruct (interval s); simpl; (split; [|lia]);
      intros h Hh; apply Hf; set_solver.
Qed.

Lemma run_handles_fresh evs s :
  (∀ h, h ∈ active (timers s) → (h < nextHandle (timers s))%positive) →
  (∀ h, h ∈ active (timers (run evs s)) →
        (h < nextHandle (timers (run evs s)))%positive) ∧
  (nextHandle (timers s) ≤ nextHandle (timers (run evs s)))%positive.
Proof.
  intros Hf. induction evs as [|e evs IH] using rev_ind;
    [split; [done|simpl; lia]|].
  rewrite run_snoc. destruct IH as [IH1 IH2].
  destruct (step_handles_fresh e _ IH1). split; [done|lia].
Qed.

(** A timer that elapses counts exactly when it is the scheduled one. *)
Lemma fire_counts h s :
  consistent s →
  step (Fire h) s =
    {| seconds := seconds s + (if decide (interval s = Some h) then 1 else 0);
       isRunning := isRunning s; interval := interval s;
       mounted := mounted s; timers := timers s |}.
Proof.
  unfold consistent. intros Hc. simpl.
  destruct s as [sec r [h0|] m t]; simpl in *.
  - destruct Hc as (-> & _).
    destruct (decide (h = h0)) as [->|Hne].
    + rewrite decide_True by set_solver. by rewrite decide_True.
    + rewrite decide_False by set_solver.
      rewrite decide_False by congruence. f_equal. lia.
  - destruct Hc as (-> & _). rewrite decide_False by set_solver.
    f_equal. lia.
Qed.

(** Starting a mounted, stopped widget schedules the next handle; its
    ticks are counted. *)
Lemma start_then_ticks n s :
  consistent s → mounted s = true → isRunning s = false →
  let s' := run (replicate n (Fire (nextHandle (timers s))))
                (step ClickToggle s) in
  consistent s' ∧ mounted s' = true ∧ isRunning s' = true ∧
  seconds s' = seconds s + Z.of_nat n ∧
  nextHandle (timers s') = (nextHandle (timers s) + 1)%positive.
Proof.
  intros Hc Hm Hr s'.
  assert (Hstart : consistent (step ClickToggle s)) by by apply step_consistent.
  assert (Hin : nextHandle (timers s) ∈ active (timers (step ClickToggle s))).
  { simpl. rewrite Hm. unfold commit, runEffect, runCleanup. rewrite Hr. simpl.
    destruct (interval s); simpl; set_solver. }
  subst s'. rewrite (ticks_add _ n _ Hin).
  split; [exact Hstart|]. simpl. rewrite Hm.
  unfold commit, runEffect, runCleanup. rewrite Hr. simpl.
  destruct (interval s); simpl; by rewrite ?Hm.
Qed.

Lemma stop_keeps_seconds s :
  mounted s = true → isRunning s = true →
  let s' := step ClickToggle s in
  mounted s' = true ∧ isRunning s' = false ∧ seconds s' = seconds s ∧
  nextHandle (timers s') = nextHandle (timers s).
Proof.
  intros Hm Hr. simpl. rewrite Hm. unfold commit, runEffect, runCleanup.
  rewrite Hr. simpl. destruct (interval s); simpl; by rewrite ?Hm.
Qed.

End TimerMoreFacts.

Example timer_pause_resume_example :
  TimerDemo.shown (TimerDemo.run
    [TimerDemo.ClickToggle; TimerDemo.Fire 5; TimerDemo.Fire 5;
     TimerDemo.ClickToggle; TimerDemo.Fire 5; TimerDemo.ClickToggle;
     TimerDemo.Fire 5; TimerDemo.Fire 6; TimerDemo.Unmount; TimerDemo.Fire 6]%positive
    (TimerDemo.mount 5)) = "00:03".
Proof. vm_compute. reflexivity. Qed.

(** X3. In every state the timer widget reaches, at most one interval is
    active; one is active exactly while the widget is mounted with the
    running flag on; and an active handle is one [setInterval] has already
    handed out. *)
Theorem timer_at_most_one_interval
    (first : positive) (evs : list TimerDemo.Event) :
  let s := TimerDemo.run evs (TimerDemo.mount first) in
  (size (TimerDemo.active (TimerDemo.timers s)) ≤ 1)%nat ∧
  bool_decide (TimerDemo.active (TimerDemo.timers s) = ∅)
    = negb (TimerDemo.mounted s && TimerDemo.isRunning s) ∧
  set_Forall (λ h, (h < TimerDemo.nextHandle (TimerDemo.timers s))%positive)
             (TimerDemo.active (TimerDemo.timers s)).
Proof.
  intros s.
  assert (Hc : TimerDemo.consistent s) by apply run_consistent, mount_consistent.
  assert (Hf := run_handles_fresh evs (TimerDemo.mount first)).
  split; [|split].
  - unfold TimerDemo.consistent in Hc.
    destruct (TimerDemo.interval s); destruct Hc as [-> _].
    + by rewrite size_singleton.
    + rewrite size_empty. lia.
  - unfold TimerDemo.consistent in Hc.
    destruct (TimerDemo.interval s); destruct Hc as [-> Hc].
    + destruct Hc as [-> ->]. simpl. apply bool_decide_eq_false_2. set_solver.
    + rewrite bool_decide_eq_true_2 by done.
      destruct Hc as [-> | ->]; simpl; [|done]. by rewrite andb_false_r.
  - destruct Hf as [Hf _]; [simpl; set_solver|]. exact Hf.
Qed.

(** X4. Reset on a mounted widget, in whatever state it is, sets the
    elapsed time to zero, turns the running flag off and cancels the
    interval: the display reads "00:00" and later ticks leave it so. *)
Theorem timer_reset_clears
    (first : positive) (evs : list TimerDemo.Event) (later : list positive) :
  let s := TimerDemo.run evs (TimerDemo.mount first) in
  let r := TimerDemo.step TimerDemo.ClickReset s in
  TimerDemo.mounted s = true →
  TimerDemo.seconds r = 0 ∧ TimerDemo.isRunning r = false ∧
  TimerDemo.active (TimerDemo.timers r) = ∅ ∧
  TimerDemo.shown r = "00:00" ∧
  TimerDemo.run (TimerDemo.Fire <$> later) r = r.
Proof.
  intros s r Hm.
  assert (Hc : TimerDemo.consistent r)
    by apply step_consistent, run_consistent, mount_consistent.
  assert (Hfields : TimerDemo.seconds r = 0 ∧ TimerDemo.isRunning r = false).
  { subst r. simpl. rewrite Hm.
    destruct (commit_fields 0 false s) as (-> & -> & _). done. }
  destruct Hfields as [Hsec Hrun].
  assert (Hact : TimerDemo.active (TimerDemo.timers r) = ∅)
    by (apply stopped_no_interval; auto).
  repeat split; try done.
  - unfold TimerDemo.shown. by rewrite Hsec.
  - by apply fires_without_interval.
Qed.

Lemma timer_reset_clears_witness :
  let s := TimerDemo.run [TimerDemo.ClickToggle; TimerDemo.Fire 1%positive]
                         (TimerDemo.mount 1%positive) in
  TimerDemo.mounted s = true ∧
  TimerDemo.shown (TimerDemo.step TimerDemo.ClickReset s) = "00:00".
Proof.
  intros s.
  assert (Hm : TimerDemo.mounted s = true) by reflexivity.
  split; [exact Hm|].
  exact (proj1 (proj2 (proj2 (proj2
    (timer_reset_clears 1%positive
       [TimerDemo.ClickToggle; TimerDemo.Fire 1%positive] [] Hm))))).
Defined.

(** X5. The elapsed time is never negative. A timer that elapses adds one
    second when it is the interval currently scheduled and changes nothing
    otherwise (a cancelled handle is dead). Stopping pauses: start, n
    ticks, stop, any ticks of the cancelled interval, start again, m ticks
    of the new interval, stop gives n + m seconds. *)
Theorem timer_ticks_pause_resume
    (first : positive) (evs : list TimerDemo.Event) (h : positive)
    (n k m : nat) :
  let s := TimerDemo.run evs (TimerDemo.mount first) in
  0 ≤ TimerDemo.seconds s ∧
  TimerDemo.seconds (TimerDemo.step (TimerDemo.Fire h) s)
    = TimerDemo.seconds s
      + (if decide (TimerDemo.interval s = Some h) then 1 else 0) ∧
  TimerDemo.seconds
    (TimerDemo.run
       ([TimerDemo.ClickToggle] ++ replicate n (TimerDemo.Fire first) ++
        [TimerDemo.ClickToggle] ++ replicate k (TimerDemo.Fire first) ++
        [TimerDemo.ClickToggle] ++
        replicate m (TimerDemo.Fire (first + 1)%positive) ++
        [TimerDemo.ClickToggle])
       (TimerDemo.mount first))
    = Z.of_nat n + Z.of_nat m.
Proof.
  intros s.
  assert (Hc : TimerDemo.consistent s) by apply run_consistent, mount_consistent.
  split; [by apply run_seconds_nonneg|]. split.
  { by rewrite (fire_counts h s Hc). }
  assert (Happ : ∀ a b s0, TimerDemo.run (a ++ b) s0
                           = TimerDemo.run b (TimerDemo.run a s0)).
  { intros. unfold TimerDemo.run. apply foldl_app. }
  rewrite !Happ.
  change (TimerDemo.run [TimerDemo.ClickToggle] ?x)
    with (TimerDemo.step TimerDemo.ClickToggle x).
  set (s0 := TimerDemo.mount first).
  destruct (start_then_ticks n s0 (mount_consistent first) eq_refl eq_refl)
    as (Hc1 & Hm1 & Hr1 & Hs1 & Hn1).
  change (TimerDemo.nextHandle (TimerDemo.timers s0)) with first in *.
  set (s1 := TimerDemo.run (replicate n _) _) in *.
  destruct (stop_keeps_seconds s1 Hm1 Hr1) as (Hm2 & Hr2 & Hs2 & Hn2).
  cbv zeta in *.
  set (s2 := TimerDemo.step TimerDemo.ClickToggle s1) in *.
  assert (Hc2 : TimerDemo.consistent s2) by by apply step_consistent.
  rewrite <- (fmap_replicate TimerDemo.Fire k first).
  rewrite (fires_without_interval _ s2)
    by (apply stopped_no_interval; auto).
  destruct (start_then_ticks m s2 Hc2 Hm2 Hr2) as (Hc3 & Hm3 & Hr3 & Hs3 & Hn3).
  rewrite Hn2, Hn1 in Hs3, Hn3, Hc3, Hm3, Hr3.
  set (s3 := TimerDemo.run (replicate m _) _) in *.
  destruct (stop_keeps_seconds s3 Hm3 Hr3) as (_ & _ & -> & _).
  rewrite Hs3, Hs2, Hs1. subst s0. simpl. lia.
Qed.

(** ** [slice] with a negative start *)

Section SliceFacts.
Context {A : Type}.
Implicit Types (l : list A).

(** [slice(-n)] keeps the last [n] elements, or all when there are fewer. *)
Lemma slice_last (n : nat) l :
  (0 < n)%nat → JS.slice (- Z.of_nat n) l = drop (length l - n) l.
Proof.
  intros Hn. unfold JS.slice.
  destruct (- Z.of_nat n <? 0) eqn:Hlt; [|apply Z.ltb_ge in Hlt; lia].
  f_equal. lia.
Qed.

Lemma slice_last_length (n : nat) l :
  (0 < n)%nat → length (JS.slice (- Z.of_nat n) l) = (length l `min` n)%nat.
Proof. intros Hn. rewrite slice_last by done. rewrite length_drop. lia. Qed.

Lemma slice_last_suffix (n : nat) l :
  (0 < n)%nat → JS.slice (- Z.of_nat n) l `suffix_of` l.
Proof. intros Hn. rewrite slice_last by done. apply suffix_drop. Qed.


End SliceFacts.

(** ** Effect log *)

Section EffectLogFacts.
Import EffectLog.
Implicit Types (s : State) (e : Event).






End EffectLogFacts.

Example effect_log_example :
  EffectLog.effectLog
    (EffectLog.run
       [EffectLog.ClickIncrement "t1"; EffectLog.ClickIncrement "t2";
        EffectLog.ClickClear; EffectLog.ClickIncrement "t3"]
       (EffectLog.mount "t0"))
  = ["[t3] Effect ran! Count is now: 3"].
Proof. vm_compute. reflexivity. Qed.


(** ** Theme: reload, class list, system preference *)

Section ThemeMoreFacts.
Import ThemeContext ThemeDocument.
Implicit Types (s : State) (t : Theme) (o : Op) (w : Window).

Lemma getInitialTheme_persisted s :
  persisted s → getInitialTheme (Some (window s)) = theme s.
Proof.
  unfold persisted, getInitialTheme. intros ->. by destruct (theme s).
Qed.

Lemma themeString_inj t t' : themeString t = themeString t' → t = t'.
Proof. by destruct t, t'. Qed.

Lemma applyTheme_themed cl0 t s :
  themed cl0 s → themed cl0 (applyTheme {| theme := t; window := window s |}).
Proof.
  unfold themed, applyTheme. simpl. intros ->.
  destruct t, (theme s); simpl; set_solver.
Qed.

Lemma setThemeState_themed cl0 t s :
  themed cl0 s → themed cl0 (setThemeState t s).
Proof.
  intros Hs. unfold setThemeState. case_decide; [done|].
  by apply applyTheme_themed.
Qed.

Lemma handleChange_inert m s :
  persisted s →
  handleChange m s =
    {| theme := theme s;
       window := {| localStorage := localStorage (window s);
                    classList := classList (window s);
                    prefersDark := m |} |}.
Proof.
  unfold persisted, handleChange. intros ->. by destruct (theme s).
Qed.

Lemma step_themed cl0 o s :
  persisted s → themed cl0 s → themed cl0 (step o s).
Proof.
  intros Hp Hs. destruct o as [|t|m]; simpl.
  - by apply setThemeState_themed.
  - by apply setThemeState_themed.
  - by rewrite handleChange_inert.
Qed.

Lemma run_themed cl0 ops s :
  persisted s → themed cl0 s → themed cl0 (run ops s).
Proof.
  revert s. induction ops as [|o ops IH]; intros s Hp Hs; [done|].
  change (run (o :: ops) s) with (run ops (step o s)).
  apply IH; [by apply step_persisted | by apply step_themed].
Qed.

Lemma mount_themed w : themed (classList w) (mount w).
Proof. unfold themed, mount, applyTheme. simpl. done. Qed.

End ThemeMoreFacts.

(** X7. The persisted theme survives a reload: in any state the provider
    reaches, initialising from the browser as it then is gives the theme
    in force, and mounting the provider anew reproduces the whole state. *)
Theorem theme_restored_on_reload
    (w : ThemeContext.Window) (ops : list ThemeContext.Op) :
  let s := ThemeContext.run ops (ThemeContext.mount w) in
  ThemeContext.getInitialTheme (Some (ThemeContext.window s))
    = ThemeContext.theme s ∧
  ThemeContext.mount (ThemeContext.window s) = s.
Proof.
  intros s.
  destruct (run_persisted ops (ThemeContext.mount w)
              (applyTheme_persisted _)) as [Hp _].
  assert (Hcl := run_themed (ThemeContext.classList w) ops
                   (ThemeContext.mount w) (applyTheme_persisted _)
                   (mount_themed w)).
  change (ThemeContext.persisted s) in Hp.
  change (ThemeDocument.themed (ThemeContext.classList w) s) in Hcl.
  pose proof (getInitialTheme_persisted s Hp) as Hinit.
  split; [exact Hinit|].
  unfold ThemeContext.mount. rewrite Hinit.
  unfold ThemeContext.persisted, ThemeDocument.themed in *.
  destruct s as [t [ls cl pd]]. unfold ThemeContext.applyTheme. simpl in *.
  f_equal. f_equal.
  - by apply insert_id.
  - rewrite Hcl. destruct t; simpl; set_solver.
Qed.

(** X8. After mounting and any sequence of theme operations the root
    element's class list is the class of the theme in force together with
    the classes that were there before, 'light' and 'dark' apart: it holds
    the current theme's class and not the other theme's. *)
Theorem theme_class_follows_theme
    (w : ThemeContext.Window) (ops : list ThemeContext.Op) :
  let s := ThemeContext.run ops (ThemeContext.mount w) in
  let cl := ThemeContext.classList (ThemeContext.window s) in
  cl = {[ThemeContext.themeString (ThemeContext.theme s)]}
       ∪ (ThemeContext.classList w ∖ {["light"; "dark"]}) ∧
  ThemeContext.themeString (ThemeContext.theme s) ∈ cl ∧
  ThemeContext.themeString (ThemeContext.toggled (ThemeContext.theme s)) ∉ cl.
Proof.
  intros s cl.
  assert (Hcl := run_themed (ThemeContext.classList w) ops
                   (ThemeContext.mount w) (applyTheme_persisted _)
                   (mount_themed w)).
  change (cl = {[ThemeContext.themeString (ThemeContext.theme s)]}
               ∪ (ThemeContext.classList w ∖ {["light"; "dark"]})) in Hcl.
  split; [exact Hcl|]. rewrite Hcl.
  destruct (ThemeContext.theme s); simpl; set_solver.
Qed.

(** X9. Where there is no window the initial theme is 'light'; in a
    browser a stored value other than 'light' and 'dark' is ignored and
    the system preference decides. *)
Theorem getInitialTheme_ignores_other_values
    (w : ThemeContext.Window) (stored : string) :
  ThemeContext.getInitialTheme None = ThemeContext.light ∧
  (ThemeContext.localStorage w !! ThemeContext.THEME_STORAGE_KEY = Some stored →
   stored ≠ "light" → stored ≠ "dark" →
   ThemeContext.getInitialTheme (Some w)
     = if ThemeContext.prefersDark w then ThemeContext.dark
       else ThemeContext.light).
Proof.
  split; [done|]. intros Hst Hl Hd. unfold ThemeContext.getInitialTheme.
  rewrite Hst. by rewrite !decide_False.
Qed.

Lemma getInitialTheme_ignores_other_values_witness :
  ThemeContext.getInitialTheme
    (Some {| ThemeContext.localStorage :=
               {[ ThemeContext.THEME_STORAGE_KEY := "Dark" ]};
             ThemeContext.classList := ∅;
             ThemeContext.prefersDark := false |}) = ThemeContext.light.
Proof.
  apply (proj2 (getInitialTheme_ignores_other_values
                  {| ThemeContext.localStorage :=
                       {[ ThemeContext.THEME_STORAGE_KEY := "Dark" ]};
                     ThemeContext.classList := ∅;
                     ThemeContext.prefersDark := false |} "Dark")).
  - vm_compute. reflexivity.
  - discriminate.
  - discriminate.
Defined.



(** X11. The label of the theme button in the layout and the sidebar
    names the theme a click on it switches to. *)
Theorem theme_button_label_names_next_theme (s : ThemeContext.State) :
  Layout.themeButtonLabel (ThemeContext.theme s)
    = "Switch to " +:+
      ThemeContext.themeString
        (ThemeContext.theme (ThemeContext.toggleTheme s)) +:+ " mode".
Proof.
  unfold ThemeContext.toggleTheme. rewrite setThemeState_theme.
  unfold Layout.themeButtonLabel. by destruct (ThemeContext.theme s).
Qed.

(** ** Routes: totality and the sidebar's links *)

Section RouterMoreFacts.
Import Router.
Variable matchPath : string → string → bool.
Implicit Types (r : Route) (pathname : string).

Lemma children_split r :
  r ∈ children →
  r ∈ declared ∨
  r = {| index := false; path := Some "*"; element := Navigate "/" true |}.
Proof.
  rewrite declared_eq. unfold children. intros Hr.
  repeat (apply elem_of_cons in Hr as [->|Hr]; [set_solver|]).
  by apply elem_of_nil in Hr.
Qed.

Lemma declared_not_navigate r to rep :
  r ∈ declared → element r ≠ Navigate to rep.
Proof.
  rewrite declared_eq. intros Hr.
  repeat (apply elem_of_cons in Hr as [->|Hr]; [done|]).
  by apply elem_of_nil in Hr.
Qed.

(** Some route always matches, the catch-all if no other. *)
Lemma resolve_is_route pathname :
  ∃ r, r ∈ children ∧ resolve matchPath pathname = Some (element r).
Proof.
  unfold resolve.
  destruct (List.find (matches matchPath pathname) (ranked children))
    as [r|] eqn:Hfind.
  - exists r. split; [|done]. apply find_some in Hfind as [Hin _].
    apply list_elem_of_In. unfold children.
    rewrite ranked_children, declared_eq in Hin. simpl in Hin.
    simpl. tauto.
  - exfalso.
    assert (Hsplat := find_none _ _ Hfind
      {| index := false; path := Some "*"; element := Navigate "/" true |}).
    rewrite ranked_children, declared_eq in Hsplat. simpl in Hsplat.
    assert (true = false); [|done]. apply Hsplat. tauto.
Qed.

Lemma resolve_root :
  matchPath rootPath rootPath = true →
  Forall (λ p, matchPath p rootPath = false) hooksListPaths →
  resolve matchPath rootPath = Some HomePage.
Proof.
  intros Hroot Hhooks.
  apply (resolve_unique_match matchPath
           {| index := true; path := None; element := HomePage |}).
  - rewrite declared_eq. apply elem_of_cons. by left.
  - exact Hroot.
  - rewrite declared_eq. unfold hooksListPaths in Hhooks.
    repeat (apply Forall_cons in Hhooks as [? Hhooks]).
    apply Forall_cons; split; [done|].
    repeat (apply Forall_cons; split; [by intros _|]). done.
Qed.

Lemma landing_is_page pathname :
  matchPath rootPath rootPath = true →
  Forall (λ p, matchPath p rootPath = false) hooksListPaths →
  ∃ r, r ∈ declared ∧ landing matchPath pathname = Some (element r).
Proof.
  intros Hroot Hhooks. unfold landing.
  destruct (resolve_is_route pathname) as (r & Hr & ->).
  apply children_split in Hr as [Hr| ->].
  - exists r. split; [done|].
    pose proof (declared_not_navigate r) as Hnav.
    destruct (element r); try done. by destruct (Hnav to replace Hr).
  - simpl. exists {| index := true; path := None; element := HomePage |}.
    split; [rewrite declared_eq; apply elem_of_cons; by left|].
    by apply resolve_root.
Qed.

End RouterMoreFacts.

(** X12. Whatever the path matcher, every location resolves to the element
    of some route of the table, so no location is left without a page. If
    the matcher sends the home path to the index route only, what ends up
    on screen is always the page of a declared route: a redirect never
    leads to another redirect. *)
Theorem router_every_location_lands_on_a_page
    (matchPath : string → string → bool) (pathname : string) :
  (∃ r, r ∈ Router.children ∧
        Router.resolve matchPath pathname = Some (Router.element r)) ∧
  (matchPath Router.rootPath Router.rootPath = true →
   Forall (λ p, matchPath p Router.rootPath = false) Router.hooksListPaths →
   ∃ r, r ∈ Router.declared ∧
        Router.landing matchPath pathname = Some (Router.element r) ∧
        ∀ to rep, Router.element r ≠ Router.Navigate to rep).
Proof.
  split; [apply resolve_is_route|].
  intros Hroot Hhooks.
  destruct (landing_is_page matchPath pathname Hroot Hhooks) as (r & Hr & Hl).
  exists r. split; [done|]. split; [done|].
  intros to rep. by apply declared_not_navigate.
Qed.

Lemma router_every_location_lands_on_a_page_witness :
  ∃ r, r ∈ Router.declared ∧
       Router.landing Router.matchExact "/no/such/page"
         = Some (Router.element r) ∧
       ∀ to rep, Router.element r ≠ Router.Navigate to rep.
Proof.
  apply (proj2 (router_every_location_lands_on_a_page
                  Router.matchExact "/no/such/page")).
  - reflexivity.
  - unfold Router.hooksListPaths.
    repeat (apply Forall_cons; split; [by vm_compute|]). by constructor.
Defined.

(** ** Hook list *)

Section HooksListFacts.
Import HooksList.
Implicit Types (hook : HookInfo) (c : HookCategory) (acc : Groups).

Lemma lookupGroup_None c acc : lookupGroup c acc = None ↔ c ∉ acc.*1.
Proof.
  unfold lookupGroup. induction acc as [|[c' hs] acc IH]; simpl.
  - split; [intros _; apply not_elem_of_nil|done].
  - case_bool_decide; simpl in *; subst.
    + split; [done|]. intros Hn. destruct Hn. apply list_elem_of_here.
    + rewrite IH, not_elem_of_cons. naive_solver.
Qed.

Lemma lookupGroup_snoc c acc c0 hs :
  lookupGroup c (acc ++ [(c0, hs)]) =
    match lookupGroup c acc with
    | Some g => Some g
    | None => if decide (c0 = c) then Some hs else None
    end.
Proof.
  unfold lookupGroup. induction acc as [|[c' hs'] acc IH]; simpl.
  - case_bool_decide; by case_decide.
  - by case_bool_decide.
Qed.

Lemma lookupGroup_push c c' hook acc :
  lookupGroup c' (pushToGroup c hook acc) =
    if decide (c = c') then (λ g, g ++ [hook]) <$> lookupGroup c' acc
    else lookupGroup c' acc.
Proof.
  unfold lookupGroup, pushToGroup.
  induction acc as [|[c0 hs] acc IH]; simpl; [by case_decide|].
  repeat (case_decide || case_bool_decide); simpl in *; subst;
    try done; try congruence.
Qed.

Lemma pushToGroup_keys c hook acc : (pushToGroup c hook acc).*1 = acc.*1.
Proof.
  unfold pushToGroup. rewrite <- list_fmap_compose.
  apply list_fmap_ext. intros _ [c' hs] _. simpl. by case_decide.
Qed.

Lemma pushToGroup_cons c hook c' hs acc :
  pushToGroup c hook ((c', hs) :: acc) =
    (if decide (c' = c) then (c', hs ++ [hook]) else (c', hs))
    :: pushToGroup c hook acc.
Proof. reflexivity. Qed.

Lemma pushToGroup_absent c hook acc :
  c ∉ acc.*1 → pushToGroup c hook acc = acc.
Proof.
  induction acc as [|[c' hs] acc IH]; [done|].
  rewrite fmap_cons, not_elem_of_cons, pushToGroup_cons. simpl.
  intros [Hne Hnin]. rewrite decide_False by done. by rewrite IH.
Qed.

Lemma pushToGroup_concat c hook acc :
  NoDup acc.*1 → c ∈ acc.*1 →
  concat (pushToGroup c hook acc).*2 ≡ₚ hook :: concat acc.*2.
Proof.
  induction acc as [|[c' hs] acc IH]; [by intros _ ?%elem_of_nil|].
  rewrite pushToGroup_cons, !fmap_cons. cbn [fst snd concat].
  intros [Hnin Hnd]%NoDup_cons Hin.
  destruct (decide (c' = c)) as [->|Hne]; cbn [fst snd].
  - rewrite pushToGroup_absent by done.
    rewrite <- (assoc (++)). simpl.
    by rewrite <- Permutation_middle.
  - apply elem_of_cons in Hin as [?|Hin]; [congruence|].
    rewrite IH by done. by rewrite <- Permutation_middle.
Qed.

Lemma addHook_lookup c acc hook :
  lookupGroup c (addHook acc hook) =
    if decide (category hook = c)
    then Some (default [] (lookupGroup c acc) ++ [hook])
    else lookupGroup c acc.
Proof.
  unfold addHook, ensureGroup. rewrite lookupGroup_push.
  destruct (lookupGroup (category hook) acc) as [g|] eqn:Hg.
  - case_decide; [subst; by rewrite Hg|done].
  - rewrite lookupGroup_snoc. case_decide; subst.
    + by rewrite Hg.
    + by destruct (lookupGroup c acc).
Qed.

Lemma addHook_keys acc hook :
  NoDup acc.*1 → NoDup (addHook acc hook).*1 ∧ category hook ∈ (addHook acc hook).*1.
Proof.
  intros Hnd. unfold addHook, ensureGroup. rewrite pushToGroup_keys.
  destruct (lookupGroup (category hook) acc) as [g|] eqn:Hg.
  - split; [done|]. destruct (decide (category hook ∈ acc.*1)); [done|].
    apply lookupGroup_None in n. congruence.
  - apply lookupGroup_None in Hg. rewrite fmap_app. simpl. split.
    + apply NoDup_app. split; [done|]. split; [|apply NoDup_singleton].
      by intros x Hx ->%list_elem_of_singleton.
    + apply elem_of_app. right. apply list_elem_of_here.
Qed.

Lemma addHook_concat acc hook :
  NoDup acc.*1 → concat (addHook acc hook).*2 ≡ₚ hook :: concat acc.*2.
Proof.
  intros Hnd. unfold addHook, ensureGroup.
  destruct (lookupGroup (category hook) acc) as [g|] eqn:Hg.
  - apply pushToGroup_concat; [done|].
    destruct (decide (category hook ∈ acc.*1)); [done|].
    apply lookupGroup_None in n. congruence.
  - apply lookupGroup_None in Hg.
    rewrite pushToGroup_concat.
    + rewrite fmap_app, concat_app. simpl. by rewrite !app_nil_r.
    + rewrite fmap_app. simpl. apply NoDup_app. split; [done|].
      split; [|apply NoDup_singleton].
      by intros x Hx ->%list_elem_of_singleton.
    + rewrite fmap_app. apply elem_of_app. right. apply list_elem_of_here.
Qed.

Lemma groupHooks_snoc hooks hook :
  groupHooks (hooks ++ [hook]) = addHook (groupHooks hooks) hook.
Proof. unfold groupHooks. by rewrite foldl_app. Qed.

Lemma groupHooks_spec (hooks : list HookInfo) :
  NoDup (groupHooks hooks).*1 ∧
  concat (groupHooks hooks).*2 ≡ₚ hooks ∧
  ∀ c, lookupGroup c (groupHooks hooks) =
         match filter (λ hook, category hook = c) hooks with
         | [] => None
         | g => Some g
         end.
Proof.
  induction hooks as [|hook hooks (IHnd & IHperm & IHlook)] using rev_ind.
  - split; [constructor|]. split; [done|]. done.
  - rewrite groupHooks_snoc. split; [by apply addHook_keys|]. split.
    + rewrite addHook_concat by done. rewrite IHperm.
      by rewrite Permutation_cons_append.
    + intros c. rewrite addHook_lookup, IHlook, filter_app.
      rewrite (filter_cons _ hook), filter_nil.
      case_decide; [|by rewrite app_nil_r].
      destruct (filter _ hooks); done.
Qed.

End HooksListFacts.

Example sidebar_groups_example :
  HooksList.categories
    = [HooksList.state; HooksList.effect; HooksList.ref;
       HooksList.memoization; HooksList.context] ∧
  HooksList.id <$> HooksList.sidebarLinks
    = ["useState"; "useReducer"; "useEffect"; "useRef"; "useMemo";
       "useCallback"; "useContext"].
Proof. vm_compute. auto. Qed.

Ltac declared_path :=
  apply list_elem_of_In; vm_compute; tauto.

(** X13. The paths the sidebar links to are the hook paths of the route
    table, and under any path matcher that matches a declared path against
    a declared pattern exactly when they are equal, the link of each hook
    mounts that hook's page: no link falls through to the home page or the
    catch-all. *)
Theorem sidebar_links_reach_their_pages
    (matchPath : string → string → bool) :
  (∀ p q, p ∈ Router.fullPath <$> Router.declared →
          q ∈ Router.fullPath <$> Router.declared →
          matchPath p q = bool_decide (p = q)) →
  HooksList.path <$> HooksList.hooksList = Router.hooksListPaths ∧
  Forall2 (λ hook page,
             Router.resolve matchPath (HooksList.path hook) = Some page)
          HooksList.hooksList
          [ Router.UseStatePlayground; Router.UseEffectPlayground;
            Router.UseReducerPlayground; Router.UseRefPlayground;
            Router.UseMemoPlayground; Router.UseCallbackPlayground;
            Router.UseContextPlayground ].
Proof.
  intros Hexact. split; [reflexivity|].
  unfold HooksList.hooksList.
  repeat (apply Forall2_cons; split; [|]); [..|apply Forall2_nil_2];
    unfold Router.resolve; rewrite ranked_children, declared_eq;
    unfold Router.matches; simpl;
    rewrite !Hexact by declared_path; reflexivity.
Qed.

Lemma sidebar_links_reach_their_pages_witness :
  Forall2 (λ hook page,
             Router.resolve Router.matchExact (HooksList.path hook) = Some page)
          HooksList.hooksList
          [ Router.UseStatePlayground; Router.UseEffectPlayground;
            Router.UseReducerPlayground; Router.UseRefPlayground;
            Router.UseMemoPlayground; Router.UseCallbackPlayground;
            Router.UseContextPlayground ].
Proof.
  apply (proj2 (sidebar_links_reach_their_pages Router.matchExact
    (λ p q _ _,
       match String.eqb_spec p q in reflect _ b
             return b = bool_decide (p = q) with
       | ReflectT _ H => eq_sym (bool_decide_eq_true_2 _ H)
       | ReflectF _ H => eq_sym (bool_decide_eq_false_2 _ H)
       end))).
Defined.

(** X14. Looking a hook up by id finds it: every hook of the list is
    returned for its own id, whatever is returned for an id is a hook of
    the list with that id, and an id no hook has gives [undefined]. *)
Theorem hooks_found_by_id (hook : HooksList.HookInfo) (id' : string) :
  (hook ∈ HooksList.hooksList →
   HooksList.getHookById (HooksList.id hook) = Some hook) ∧
  match HooksList.getHookById id' with
  | Some found => found ∈ HooksList.hooksList ∧ HooksList.id found = id'
  | None => id' ∉ HooksList.id <$> HooksList.hooksList
  end.
Proof.
  split.
  - unfold HooksList.hooksList. intros Hin.
    repeat (apply elem_of_cons in Hin as [->|Hin]; [reflexivity|]).
    by apply elem_of_nil in Hin.
  - unfold HooksList.getHookById.
    destruct (List.find _ HooksList.hooksList) as [found|] eqn:Hfind.
    + apply find_some in Hfind as [Hin Hid].
      split; [by apply list_elem_of_In | by apply bool_decide_eq_true_1 in Hid].
    + intros (h & -> & Hh)%list_elem_of_fmap.
      apply list_elem_of_In in Hh.
      pose proof (find_none _ _ Hfind h Hh) as Hno. simpl in Hno.
      by rewrite bool_decide_eq_true_2 in Hno.
Qed.

Lemma hooks_found_by_id_witness :
  HooksList.getHookById "useMemo"
  = Some {| HooksList.id := "useMemo"; HooksList.name := "useMemo";
            HooksList.description := "Memoize expensive computations";
            HooksList.category := HooksList.memoization;
            HooksList.path := "/hooks/use-memo"; HooksList.icon := "🧠" |}.
Proof.
  apply (proj1 (hooks_found_by_id
    {| HooksList.id := "useMemo"; HooksList.name := "useMemo";
       HooksList.description := "Memoize expensive computations";
       HooksList.category := HooksList.memoization;
       HooksList.path := "/hooks/use-memo"; HooksList.icon := "🧠" |} "")).
  unfold HooksList.hooksList. do 4 apply list_elem_of_further.
  apply list_elem_of_here.
Defined.

(** X15. The sidebar's grouping files every hook under its category and
    nowhere else, for any list of hooks: the group of a category is the
    list's hooks of that category in their order (no group when there is
    none), no category has two groups, and the groups together hold the
    hooks of the list, each once. For the hook list of the application the
    group of each category shown is what [getHooksByCategory] returns. *)
Theorem sidebar_groups_partition_hooks
    (hooks : list HooksList.HookInfo) (c : HooksList.HookCategory) :
  HooksList.lookupGroup c (HooksList.groupHooks hooks) =
    match filter (λ hook, HooksList.category hook = c) hooks with
    | [] => None
    | g => Some g
    end ∧
  NoDup (HooksList.groupHooks hooks).*1 ∧
  concat (HooksList.groupHooks hooks).*2 ≡ₚ hooks ∧
  HooksList.sidebarLinks ≡ₚ HooksList.hooksList ∧
  Forall (λ c', HooksList.lookupGroup c' HooksList.groupedHooks
                = Some (HooksList.getHooksByCategory c'))
         HooksList.categories.
Proof.
  destruct (groupHooks_spec hooks) as (Hnd & Hperm & Hlook).
  split; [apply Hlook|]. split; [exact Hnd|]. split; [exact Hperm|].
  split; [apply (groupHooks_spec HooksList.hooksList)|].
  assert (Hcat : HooksList.categories
                 = [HooksList.state; HooksList.effect; HooksList.ref;
                    HooksList.memoization; HooksList.context])
    by (vm_compute; reflexivity).
  rewrite Hcat.
  repeat (apply Forall_cons; split; [vm_compute; reflexivity|]).
  by constructor.
Qed.

(** ** Todo reducer: toggling, deleting, clearing *)

Section TodoFacts.
Import Reducers.
Implicit Types (st : TodoState) (i : Z).

Lemma last_drop_lt {A} (l : list A) (k : nat) :
  (k < length l)%nat → last (drop k l) = last l.
Proof.
  intros Hk. rewrite !last_lookup, lookup_drop, length_drop. f_equal. lia.
Qed.

Lemma filter_split_length {A} (P : A → Prop) `{!∀ x, Decision (P x)}
    (l : list A) :
  (length (filter P l) + length (filter (λ x, ¬ P x) l) = length l)%nat.
Proof.
  induction l as [|x l IH]; [done|].
  rewrite !filter_cons. destruct (decide (P x)); simpl.
  - rewrite decide_False by tauto. lia.
  - rewrite decide_True by done. simpl. lia.
Qed.

Lemma filter_all {A} (P : A → Prop) `{!∀ x, Decision (P x)} (l : list A) :
  Forall P l → filter P l = l.
Proof.
  induction 1 as [|x l Hx Hl IH]; [done|].
  rewrite filter_cons, decide_True by done. by rewrite IH.
Qed.

Lemma filter_none {A} (P : A → Prop) `{!∀ x, Decision (P x)} (l : list A) :
  Forall (λ x, ¬ P x) l → filter P l = [].
Proof.
  induction 1 as [|x l Hx Hl IH]; [done|].
  by rewrite filter_cons, decide_False.
Qed.

Lemma filter_ne_absent {A} (f : A → Z) (l : list A) i :
  i ∉ f <$> l → filter (λ x, f x ≠ i) l = l.
Proof.
  intros Hnin. apply filter_all, Forall_forall. intros x Hx Heq.
  apply Hnin, list_elem_of_fmap. exists x. by split.
Qed.

(** Deleting an id that occurs once removes one element. *)
Lemma filter_ne_length {A} (f : A → Z) (l : list A) i :
  NoDup (f <$> l) → i ∈ f <$> l →
  (length (filter (λ x, f x ≠ i) l) + 1 = length l)%nat.
Proof.
  induction l as [|x l IH]; [by intros _ ?%elem_of_nil|].
  rewrite fmap_cons, filter_cons. intros [Hnin Hnd]%NoDup_cons Hin.
  destruct (decide (f x ≠ i)) as [Hne|Heq]; simpl.
  - apply elem_of_cons in Hin as [?|Hin]; [congruence|].
    rewrite <- (IH Hnd Hin). lia.
  - apply dec_stable in Heq. subst i.
    rewrite (filter_ne_absent f l (f x) Hnin). lia.
Qed.


End TodoFacts.



(** X17. In any state the todo reducer reaches, DELETE removes the todo
    with the given id and no other: the id is gone, every other todo stays
    as it was, the list is one shorter when the id was there, and the state
    is unchanged when it was not. *)
Theorem todo_delete_removes_exactly
    (actions : list Reducers.TodoAction) (i : Z) (todo : Reducers.Todo) :
  let st := Reducers.todoRun actions in
  let st' := Reducers.todoReducer st (Reducers.DELETE i) in
  (i ∉ Reducers.ids st') ∧
  (todo ∈ Reducers.todos st' ↔
   (todo ∈ Reducers.todos st ∧ Reducers.id todo ≠ i)) ∧
  (i ∈ Reducers.ids st →
   (length (Reducers.todos st') + 1 = length (Reducers.todos st))%nat) ∧
  (i ∉ Reducers.ids st → st' = st).
Proof.
  intros st st'.
  assert (Hfresh : Reducers.freshIds st).
  { apply foldl_todoReducer_freshIds. split; [constructor|]. by constructor. }
  destruct Hfresh as [Hnd _]. subst st'.
  split; [|split; [|split]].
  - rewrite ids_delete. intros Hin%list_elem_of_filter. tauto.
  - simpl. rewrite list_elem_of_filter. tauto.
  - intros Hin. simpl. by apply filter_ne_length.
  - intros Hnin. destruct st as [l n]. simpl in *. f_equal.
    by apply filter_ne_absent.
Qed.

Lemma todo_delete_removes_exactly_witness :
  let st := Reducers.todoRun [Reducers.ADD "a"; Reducers.ADD "b"] in
  (length (Reducers.todos (Reducers.todoReducer st (Reducers.DELETE 1))) + 1
   = length (Reducers.todos st))%nat ∧
  Reducers.todoReducer st (Reducers.DELETE 9) = st.
Proof.
  intros st.
  destruct (todo_delete_removes_exactly
              [Reducers.ADD "a"; Reducers.ADD "b"] 1
              {| Reducers.id := 1; Reducers.text := "a";
                 Reducers.completed := false |}) as (_ & _ & Hlen & _).
  destruct (todo_delete_removes_exactly
              [Reducers.ADD "a"; Reducers.ADD "b"] 9
              {| Reducers.id := 1; Reducers.text := "a";
                 Reducers.completed := false |}) as (_ & _ & _ & Hsame).
  split.
  - apply Hlen. vm_compute. apply list_elem_of_here.
  - apply Hsame. vm_compute. intros Hin.
    repeat (apply elem_of_cons in Hin as [Hin|Hin]; [discriminate Hin|]).
    by apply elem_of_nil in Hin.
Defined.

(** X18. CLEAR_COMPLETED leaves no completed todo and drops as many todos
    as were completed, keeping the others in order; doing it again changes
    nothing. *)
Theorem todo_clear_completed_clears (st : Reducers.TodoState) :
  let st' := Reducers.todoReducer st Reducers.CLEAR_COMPLETED in
  ReducerPlayground.completedCount st' = 0%nat ∧
  (length (Reducers.todos st') + ReducerPlayground.completedCount st
   = length (Reducers.todos st))%nat ∧
  Reducers.todos st' `sublist_of` Reducers.todos st ∧
  Reducers.todoReducer st' Reducers.CLEAR_COMPLETED = st'.
Proof.
  destruct st as [l n]. simpl. unfold ReducerPlayground.completedCount. simpl.
  assert (Hkept : Forall (λ todo, Reducers.completed todo = false)
                         (filter (λ todo, Reducers.completed todo = false) l)).
  { apply Forall_forall. by intros todo [? _]%list_elem_of_filter. }
  split; [|split; [|split]].
  - rewrite filter_none; [done|].
    eapply Forall_impl; [exact Hkept|]. simpl. by intros todo ->.
  - rewrite <- (filter_split_length
                  (λ todo, Reducers.completed todo = true) l).
    rewrite Nat.add_comm. f_equal. f_equal.
    apply list_filter_iff. intros todo. by destruct (Reducers.completed todo).
  - apply sublist_filter.
  - f_equal. by apply filter_all.
Qed.

(** ** The useReducer page *)

Section ReducerPlaygroundFacts.
Import Reducers ReducerPlayground.
Variable trim : string → string.
Implicit Types (s : State) (e : Event) (st : TodoState).

Lemma truthy_nonempty (x : string) : JS.truthy x = true → x ≠ "".
Proof. by destruct x. Qed.

(** TOGGLE, DELETE and CLEAR_COMPLETED keep any property of the texts. *)
Lemma todoReducer_texts (R : string → Prop) st (a : TodoAction) :
  match a with ADD _ => False | _ => True end →
  Forall (λ todo, R (text todo)) (todos st) →
  Forall (λ todo, R (text todo)) (todos (todoReducer st a)).
Proof.
  intros Ha Hst. destruct a as [txt|i|i| |ty]; simpl; try done.
  - apply Forall_fmap. eapply Forall_impl; [exact Hst|].
    intros todo Htodo. simpl. by case_decide.
  - apply Forall_forall. intros todo [_ Hin]%list_elem_of_filter.
    rewrite Forall_forall in Hst. by apply Hst.
  - apply Forall_forall. intros todo [_ Hin]%list_elem_of_filter.
    rewrite Forall_forall in Hst. by apply Hst.
Qed.

Lemma handleAddTodo_typed s :
  typedTexts (λ x, x ≠ "" ∧ ∃ typed, x = trim typed) s →
  typedTexts (λ x, x ≠ "" ∧ ∃ typed, x = trim typed) (handleAddTodo trim s).
Proof.
  intros [Htexts Hfresh]. unfold handleAddTodo.
  destruct (JS.truthy (trim (newTodo s))) eqn:Htruthy; [|done].
  split; simpl.
  - apply Forall_app. split; [done|]. apply Forall_singleton. simpl.
    split; [by apply truthy_nonempty | eauto].
  - by apply (todoReducer_freshIds (todoState s) (ADD _)).
Qed.

Lemma step_typed e s :
  typedTexts (λ x, x ≠ "" ∧ ∃ typed, x = trim typed) s →
  typedTexts (λ x, x ≠ "" ∧ ∃ typed, x = trim typed) (step trim e s).
Proof.
  intros Hs.
  assert (Htodo : ∀ a, match a with ADD _ => False | _ => True end →
    typedTexts (λ x, x ≠ "" ∧ ∃ typed, x = trim typed) (todoDispatch a s)).
  { intros a Ha. destruct Hs as [Htexts Hfresh]. split; simpl.
    - by apply (todoReducer_texts (λ x, x ≠ "" ∧ ∃ typed, x = trim typed)).
    - by apply todoReducer_freshIds. }
  destruct e; simpl; try done.
  - case_decide; [by apply handleAddTodo_typed | done].
  - by apply handleAddTodo_typed.
  - case_decide; [by apply Htodo | done].
  - case_decide; [by apply Htodo | done].
  - destruct (clearCompletedShown s); [by apply Htodo | done].
Qed.

Lemma run_typed evs s :
  typedTexts (λ x, x ≠ "" ∧ ∃ typed, x = trim typed) s →
  typedTexts (λ x, x ≠ "" ∧ ∃ typed, x = trim typed) (run trim evs s).
Proof.
  revert s. induction evs as [|e evs IH]; intros s Hs; [done|].
  change (run trim (e :: evs) s) with (run trim evs (step trim e s)).
  by apply IH, step_typed.
Qed.

End ReducerPlaygroundFacts.

Example todo_page_example :
  let s := ReducerPlayground.run JS.trimAscii
             [ReducerPlayground.TypeTodo "  buy milk ";
              ReducerPlayground.ClickAdd;
              ReducerPlayground.TypeTodo "   ";
              ReducerPlayground.KeyDown "Enter";
              ReducerPlayground.KeyDown "a";
              ReducerPlayground.ClickCheckbox 1]
             ReducerPlayground.initial in
  Reducers.todos (ReducerPlayground.todoState s)
    = [ {| Reducers.id := 1; Reducers.text := "buy milk";
           Reducers.completed := true |} ] ∧
  ReducerPlayground.newTodo s = "   " ∧
  ReducerPlayground.clearCompletedShown s = true.
Proof. vm_compute. auto. Qed.

(** X19. Whatever the user types and clicks on the useReducer page, and
    whatever [trim] does, no todo has an empty text: each text is the
    trimmed form of something typed, and the todo ids stay pairwise
    distinct. If trimming the empty string gives the empty string, a
    second Add right after the first adds nothing more. *)
Theorem todo_page_never_adds_blank
    (trim : string → string) (evs : list ReducerPlayground.Event) :
  let s := ReducerPlayground.run trim evs ReducerPlayground.initial in
  Forall (λ todo, Reducers.text todo ≠ "" ∧
                  ∃ typed, Reducers.text todo = trim typed)
         (Reducers.todos (ReducerPlayground.todoState s)) ∧
  NoDup (Reducers.ids (ReducerPlayground.todoState s)) ∧
  (trim "" = "" →
   ReducerPlayground.handleAddTodo trim (ReducerPlayground.handleAddTodo trim s)
     = ReducerPlayground.handleAddTodo trim s).
Proof.
  intros s.
  assert (Hs : ReducerPlayground.typedTexts
                 (λ x, x ≠ "" ∧ ∃ typed, x = trim typed) s).
  { apply run_typed. split; [by constructor|].
    split; [constructor|by constructor]. }
  destruct Hs as [Htexts [Hnd _]].
  split; [exact Htexts|]. split; [exact Hnd|].
  intros Hempty. unfold ReducerPlayground.handleAddTodo.
  destruct (JS.truthy (trim (ReducerPlayground.newTodo s))) eqn:Htruthy.
  - simpl. by rewrite Hempty.
  - by rewrite Htruthy.
Qed.

Lemma todo_page_never_adds_blank_witness :
  let s := ReducerPlayground.run JS.trimAscii
             [ReducerPlayground.TypeTodo " tea "]
             ReducerPlayground.initial in
  ReducerPlayground.handleAddTodo JS.trimAscii
    (ReducerPlayground.handleAddTodo JS.trimAscii s)
  = ReducerPlayground.handleAddTodo JS.trimAscii s.
Proof.
  intros s.
  apply (proj2 (proj2 (todo_page_never_adds_blank JS.trimAscii
                         [ReducerPlayground.TypeTodo " tea "]))).
  reflexivity.
Defined.

(** X20. Under "History" the useReducer page shows the last ten recorded
    values, or all of them when there are fewer: as many as there were
    updates since the last reset, up to ten, oldest first, and the last
    one shown is the count on screen. *)
Theorem history_chips_show_latest (actions : list Reducers.CounterAction) :
  let cs := Reducers.counterRun actions in
  let n := Reducers.updatesSinceReset 0 actions in
  ReducerPlayground.historyChips cs = drop (n - 10) (Reducers.history cs) ∧
  length (ReducerPlayground.historyChips cs) = (n `min` 10)%nat ∧
  match last (ReducerPlayground.historyChips cs) with
  | Some latest => latest = Reducers.count cs
  | None => n = 0%nat
  end.
Proof.
  intros cs n.
  destruct (foldl_counterReducer_tracks actions Reducers.initialState 0)
    as [Hlen Hlast]; [by split|].
  change (foldl _ _ _) with cs in Hlen, Hlast.
  change (Reducers.updatesSinceReset 0 actions) with n in Hlen.
  assert (Hchips : ReducerPlayground.historyChips cs
                   = drop (n - 10) (Reducers.history cs)).
  { unfold ReducerPlayground.historyChips.
    assert (H10 := slice_last 10 (Reducers.history cs) ltac:(lia)).
    change (- Z.of_nat 10) with (-10) in H10. by rewrite H10, Hlen. }
  split; [exact Hchips|]. rewrite Hchips. split.
  - rewrite length_drop, Hlen. lia.
  - destruct n as [|n'].
    + by destruct (Reducers.history cs).
    + rewrite last_drop_lt by lia.
      destruct (last (Reducers.history cs)) eqn:Hl; [done|].
      apply last_None in Hl. by rewrite Hl in Hlen.
Qed.

(** ** The useState page *)

Section StatePlaygroundFacts.
Import StatePlayground.
Variable trim : string → string.
Implicit Types (s : State) (e : Event).

(** Filtering out one index, the indices starting at [k]. *)
Lemma filteri_outside {A} (index : Z) (k : nat) (l : list A) :
  index < Z.of_nat k ∨ Z.of_nat (k + length l) ≤ index →
  JS.filteri (λ _ i, negb (Z.of_nat i =? index)) k l = l.
Proof.
  revert k. induction l as [|x l IH]; intros k Hout; [done|]. simpl in *.
  destruct (Z.of_nat k =? index) eqn:Hk; [apply Z.eqb_eq in Hk; lia|].
  simpl. f_equal. apply IH. lia.
Qed.

Lemma filteri_inside {A} (j k : nat) (l : list A) :
  (j < length l)%nat →
  JS.filteri (λ _ i, negb (Z.of_nat i =? Z.of_nat (k + j))) k l = delete j l.
Proof.
  revert j k. induction l as [|x l IH]; intros j k Hj; [simpl in Hj; lia|].
  simpl in *. destruct j as [|j].
  - rewrite Nat.add_0_r, Z.eqb_refl. simpl.
    apply filteri_outside. lia.
  - destruct (Z.of_nat k =? Z.of_nat (k + S j)) eqn:Hk;
      [apply Z.eqb_eq in Hk; lia|].
    simpl. f_equal. replace (k + S j)%nat with (S k + j)%nat by lia.
    apply IH. lia.
Qed.

Lemma handleRemoveItem_items (index : Z) s :
  items (handleRemoveItem index s) =
    if decide (0 ≤ index < Z.of_nat (length (items s)))
    then delete (Z.to_nat index) (items s) else items s.
Proof.
  unfold handleRemoveItem. simpl. case_decide as Hin.
  - pose proof (filteri_inside (Z.to_nat index) 0 (items s)) as Hdel.
    simpl in Hdel. rewrite Z2Nat.id in Hdel by lia. apply Hdel. lia.
  - apply filteri_outside. simpl. lia.
Qed.

Lemma handleAddItem_nonblank (R : string → Prop) s :
  (∀ typed, trim typed ≠ "" → R (trim typed)) →
  Forall R (items s) → Forall R (items (handleAddItem trim s)).
Proof.
  intros HR Hs. unfold handleAddItem.
  destruct (JS.truthy (trim (newItem s))) eqn:Htruthy; [|done].
  simpl. apply Forall_app. split; [done|]. apply Forall_singleton.
  apply HR. by destruct (trim (newItem s)).
Qed.

Lemma step_nonblank (R : string → Prop) e s :
  (∀ typed, trim typed ≠ "" → R (trim typed)) →
  Forall R (items s) → Forall R (items (step trim e s)).
Proof.
  intros HR Hs. destruct e; simpl; try done.
  - case_decide; [by apply handleAddItem_nonblank | done].
  - by apply handleAddItem_nonblank.
  - case_decide; [|done]. rewrite handleRemoveItem_items.
    case_decide; [|done]. by apply Forall_delete.
Qed.

Lemma run_nonblank (R : string → Prop) evs s :
  (∀ typed, trim typed ≠ "" → R (trim typed)) →
  Forall R (items s) → Forall R (items (run trim evs s)).
Proof.
  intros HR. revert s. induction evs as [|e evs IH]; intros s Hs; [done|].
  change (run trim (e :: evs) s) with (run trim evs (step trim e s)).
  by apply IH, step_nonblank.
Qed.

End StatePlaygroundFacts.

Example state_page_example :
  StatePlayground.items
    (StatePlayground.run JS.trimAscii
       [StatePlayground.TypeNewItem " Cherry"; StatePlayground.KeyDown "Enter";
        StatePlayground.ClickRemove 0; StatePlayground.ClickRemove 7;
        StatePlayground.ClickAdd]
       StatePlayground.initial)
  = ["Banana"; "Cherry"].
Proof. vm_compute. reflexivity. Qed.

(** X21. Remove takes out the item at the given index and nothing else:
    the items before and after it stay, in order; an index outside the
    list (negative or too large) leaves the list as it is. The other
    state of the page is not touched. *)
Theorem state_page_remove_item (index : Z) (s : StatePlayground.State) :
  let s' := StatePlayground.handleRemoveItem index s in
  StatePlayground.items s' =
    (if decide (0 ≤ index < Z.of_nat (length (StatePlayground.items s)))
     then take (Z.to_nat index) (StatePlayground.items s)
          ++ drop (S (Z.to_nat index)) (StatePlayground.items s)
     else StatePlayground.items s) ∧
  StatePlayground.count s' = StatePlayground.count s ∧
  StatePlayground.text s' = StatePlayground.text s ∧
  StatePlayground.newItem s' = StatePlayground.newItem s.
Proof.
  split; [|done]. rewrite handleRemoveItem_items.
  case_decide; [|done]. apply delete_take_drop.
Qed.

(** X22. Whatever the user types and clicks on the useState page, and
    whatever [trim] does, the list never holds an empty item: every item
    is one of the two initial ones or the non-empty trimmed form of
    something typed. *)
Theorem state_page_never_adds_blank
    (trim : string → string) (evs : list StatePlayground.Event) :
  let s := StatePlayground.run trim evs StatePlayground.initial in
  Forall (λ item, item ≠ "" ∧
                  (item = "Apple" ∨ item = "Banana" ∨
                   ∃ typed, item = trim typed))
         (StatePlayground.items s).
Proof.
  intros s. apply run_nonblank.
  - intros typed Hne. split; [done|]. right. right. by exists typed.
  - unfold StatePlayground.initial. simpl.
    repeat (apply Forall_cons; split; [split; [done|tauto]|]).
    by constructor.
Qed.

(** ** The useCallback page *)

Section CallbackPlaygroundFacts.
Import CallbackPlayground.
Implicit Types (s : State) (e : Event).






End CallbackPlaygroundFacts.

Example callback_page_example :
  CallbackPlayground.items
    (CallbackPlayground.run
       [CallbackPlayground.ClickAddItem; CallbackPlayground.ClickDeleteItem 2;
        CallbackPlayground.ClickDeleteItem 4; CallbackPlayground.ClickAddItem]
       CallbackPlayground.initial)
  = [ {| CallbackPlayground.id := 1;
         CallbackPlayground.text := "Learn useCallback" |};
      {| CallbackPlayground.id := 3;
         CallbackPlayground.text := "Build great apps" |};
      {| CallbackPlayground.id := 5;
         CallbackPlayground.text := "New item 5" |} ].
Proof. vm_compute. reflexivity. Qed.



(** ** The useRef page *)

Section RefPlaygroundFacts.
Import RefPlayground.
Implicit Types (s : State) (e : Event).

Lemma step_ref e s :
  previousValue s = Some (count s) →
  displayedRefValue s ≤ clickCount s →
  previousValue (step e s) = Some (count (step e s)) ∧
  displayedRefValue (step e s) ≤ clickCount (step e s) ∧
  clickCount (step e s) = clickCount s + Z.of_nat (refClicks [e]) ∧
  displayedRefValue (step e s)
    = if decide (e = ClickShowValue) then clickCount s else displayedRefValue s.
Proof.
  intros Hp Hd. unfold refClicks. rewrite filter_cons, filter_nil.
  destruct e; [rewrite decide_True by done|rewrite decide_False by done..];
    simpl; repeat split; try done; lia.
Qed.

Lemma refClicks_cons e evs :
  refClicks (e :: evs) = (refClicks [e] + refClicks evs)%nat.
Proof.
  unfold refClicks. rewrite !(filter_cons _ e), filter_nil.
  by case_decide.
Qed.

Lemma run_ref evs s :
  previousValue s = Some (count s) →
  displayedRefValue s ≤ clickCount s →
  previousValue (run evs s) = Some (count (run evs s)) ∧
  displayedRefValue (run evs s) ≤ clickCount (run evs s) ∧
  clickCount (run evs s) = clickCount s + Z.of_nat (refClicks evs) ∧
  (ClickShowValue ∉ evs → displayedRefValue (run evs s) = displayedRefValue s).
Proof.
  revert s. induction evs as [|e evs IH]; intros s Hp Hd.
  - simpl. repeat split; try done. unfold refClicks. simpl. lia.
  - change (run (e :: evs) s) with (run evs (step e s)).
    destruct (step_ref e s Hp Hd) as (Hp1 & Hd1 & Hc1 & Hs1).
    destruct (IH _ Hp1 Hd1) as (Hp2 & Hd2 & Hc2 & Hs2).
    repeat split; try done.
    + rewrite Hc2, Hc1, (refClicks_cons e evs). lia.
    + intros Hnin. apply not_elem_of_cons in Hnin as [Hne Hnin].
      rewrite (Hs2 Hnin), Hs1. by rewrite decide_False.
Qed.

End RefPlaygroundFacts.

Example ref_page_example :
  let s := RefPlayground.run
             [RefPlayground.ClickIncrementRef; RefPlayground.ClickIncrementRef;
              RefPlayground.ClickShowValue; RefPlayground.ClickIncrementRef;
              RefPlayground.ClickIncrement; RefPlayground.ClickIncrement]
             RefPlayground.mount in
  RefPlayground.displayedRefValue s = 2 ∧ RefPlayground.clickCount s = 3 ∧
  RefPlayground.count s = 2 ∧ RefPlayground.previousShown s = "2".
Proof. vm_compute. auto. Qed.

(** X24. On the useRef page, once a render has settled the value under
    "Previous" is the current count itself (the effect stores the count of
    the render it follows), never the placeholder. The ref counts every
    click on "Increment Ref"; the number displayed never exceeds it and is
    the number of ref clicks made before the last "Show Value". *)
Theorem ref_page_previous_and_displayed
    (evs evs' : list RefPlayground.Event) :
  let s := RefPlayground.run evs RefPlayground.mount in
  RefPlayground.previousValue s = Some (RefPlayground.count s) ∧
  RefPlayground.previousShown s = TimerDemo.String_ (RefPlayground.count s) ∧
  RefPlayground.clickCount s = Z.of_nat (RefPlayground.refClicks evs) ∧
  0 ≤ RefPlayground.displayedRefValue s ≤ RefPlayground.clickCount s ∧
  (RefPlayground.ClickShowValue ∉ evs' →
   RefPlayground.displayedRefValue
     (RefPlayground.run (evs ++ RefPlayground.ClickShowValue :: evs')
                        RefPlayground.mount)
   = Z.of_nat (RefPlayground.refClicks evs)).
Proof.
  intros s.
  destruct (run_ref evs RefPlayground.mount eq_refl ltac:(simpl; lia))
    as (Hp & Hd & Hc & _).
  change (RefPlayground.run evs RefPlayground.mount) with s in Hp, Hd, Hc.
  simpl in Hc.
  split; [exact Hp|]. split.
  { unfold RefPlayground.previousShown. by rewrite Hp. }
  split; [exact Hc|]. split.
  { split; [|exact Hd].
    clear Hp Hd Hc. subst s.
    induction evs as [|e evs IH] using rev_ind; [simpl; lia|].
    unfold RefPlayground.run in *. rewrite foldl_app. simpl.
    set (s := foldl _ _ evs) in *.
    destruct (run_ref evs RefPlayground.mount eq_refl ltac:(simpl; lia))
      as (_ & _ & Hc & _).
    change (RefPlayground.run evs RefPlayground.mount) with s in Hc.
    simpl in Hc. destruct e; simpl; lia. }
  intros Hnin. unfold RefPlayground.run. rewrite foldl_app.
  change (foldl _ RefPlayground.mount evs) with s.
  change (foldl ?f s (?e :: evs'))
    with (RefPlayground.run evs' (RefPlayground.step e s)).
  destruct (step_ref RefPlayground.ClickShowValue s Hp Hd)
    as (Hp1 & Hd1 & _ & Hs1).
  destruct (run_ref evs' _ Hp1 Hd1) as (_ & _ & _ & Hkeep).
  rewrite (Hkeep Hnin), Hs1. rewrite decide_True by done. exact Hc.
Qed.

Lemma ref_page_previous_and_displayed_witness :
  RefPlayground.displayedRefValue
    (RefPlayground.run
       ([RefPlayground.ClickIncrementRef; RefPlayground.ClickIncrementRef]
        ++ RefPlayground.ClickShowValue :: [RefPlayground.ClickIncrementRef])
       RefPlayground.mount)
  = Z.of_nat (RefPlayground.refClicks
                [RefPlayground.ClickIncrementRef; RefPlayground.ClickIncrementRef]).
Proof.
  apply (proj2 (proj2 (proj2 (proj2
    (ref_page_previous_and_displayed
       [RefPlayground.ClickIncrementRef; RefPlayground.ClickIncrementRef]
       [RefPlayground.ClickIncrementRef]))))).
  intros Hin. apply elem_of_cons in Hin as [Hin|Hin]; [discriminate Hin|].
  by apply elem_of_nil in Hin.
Defined.
